(** * Heart-rate variability features of [biosppy.signals.hrv]

    A shallow embedding of the HRV module and the properties of its
    interval builder, RRI filter, duration gates, band aggregator,
    histogram-triangle solver and entropy estimators.

    Numbers.  A Python float is modelled by an exact number: a rational
    ([Q]) wherever the code only adds, multiplies, divides and compares, so
    that the definitions evaluate; a real ([R]) where numpy applies a square
    root or a logarithm ([std], [** 0.5], [np.log]).  IEEE rounding, NaN and
    signed infinities are outside the model; [np.inf] is the one infinity the
    code writes itself and it is modelled by [PosInf]. *)

From Stdlib Require Import String List ZArith QArith Qabs Qround Qreals Reals Lia Psatz Bool Sorted.
Import ListNotations.

Open Scope Q_scope.

(** ** Exceptions and fallible results *)

Inductive exn : Type :=
| ValueError (msg : string)
| TypeError (msg : string)
| ZeroDivisionError
| IndexError
| KeyError (key : string).

Inductive result (A : Type) : Type :=
| Ok (a : A)
| Raise (e : exn).

Arguments Ok {A} a.
Arguments Raise {A} e.

Definition bind {A B : Type} (r : result A) (k : A -> result B) : result B :=
  match r with
  | Ok a => k a
  | Raise e => Raise e
  end.

Notation "x <- r ;; k" := (bind r (fun x => k))
  (at level 61, r at next level, right associativity).

(** ** Numbers *)

(** [np.inf] next to the finite floats: the duration handed to the feature
    families and the running minimum of the triangle search. *)
Inductive extended : Type :=
| Finite (q : Q)
| PosInf.

Definition Qltb (x y : Q) : bool := negb (Qle_bool y x).

(** [d < k] and [d >= k] for a possibly infinite [d]. *)
Definition ext_ltb (d : extended) (k : Q) : bool :=
  match d with
  | Finite q => Qltb q k
  | PosInf => false
  end.

Definition ext_geb (d : extended) (k : Q) : bool :=
  match d with
  | Finite q => Qle_bool k q
  | PosInf => true
  end.

(** The same comparisons as propositions. *)
Definition ext_lt (d : extended) (k : Q) : Prop :=
  match d with
  | Finite q => q < k
  | PosInf => False
  end.

Definition ext_ge (d : extended) (k : Q) : Prop :=
  match d with
  | Finite q => k <= q
  | PosInf => True
  end.

(** [e < d] for a finite [e]. *)
Definition lt_ext (e : Q) (d : extended) : bool :=
  match d with
  | Finite q => Qltb e q
  | PosInf => true
  end.

Definition np_sum (l : list Q) : Q := fold_right Qplus 0 l.

Definition np_len (l : list Q) : Q := inject_Z (Z.of_nat (length l)).

Definition np_mean (l : list Q) : Q := np_sum l / np_len l.

Definition qmin (x y : Q) : Q := if Qle_bool x y then x else y.
Definition qmax (x y : Q) : Q := if Qle_bool x y then y else x.

Definition zero_size_msg : string :=
  "zero-size array to reduction operation which has no identity".

(** [a.min()] and [a.max()]: numpy raises ValueError on an empty array. *)
Definition np_min (l : list Q) : result Q :=
  match l with
  | [] => Raise (ValueError zero_size_msg)
  | x :: xs => Ok (fold_left qmin xs x)
  end.

Definition np_max (l : list Q) : result Q :=
  match l with
  | [] => Raise (ValueError zero_size_msg)
  | x :: xs => Ok (fold_left qmax xs x)
  end.

(** [np.diff]: successive differences, one element shorter. *)
Fixpoint np_diff (l : list Q) : list Q :=
  match l with
  | a :: (b :: _) as t => (b - a) :: np_diff t
  | _ => []
  end.

(** ** Interval builder and RRI filter *)

Definition rri_warning : string :=
  "RR-intervals appear to be out of normal parameters. Check input values.".

(** [compute_rri]: the intervals in ms and the warnings emitted. *)
Definition compute_rri (rpeaks : list Q) (sampling_rate : Q)
  : result (list Q * list string) :=
  let rri := map (fun d => (1000 * d) / sampling_rate) (np_diff rpeaks) in
  mn <- np_min rri ;;
  Ok (rri, if Qltb mn 400 || Qltb 1400 mn then [rri_warning] else []).

(** [rri_filter]: [rri[np.where(rri < threshold)]]. *)
Definition rri_filter (rri : list Q) (threshold : Q) : list Q :=
  filter (fun x => Qltb x threshold) rri.

Definition default_threshold : Q := 1200.

(** Order-preserving subsequence. *)
Inductive subseq {A : Type} : list A -> list A -> Prop :=
| subseq_nil : subseq [] []
| subseq_skip x s l : subseq s l -> subseq s (x :: l)
| subseq_keep x s l : subseq s l -> subseq (x :: s) (x :: l).

(** ** Named results *)

Inductive value : Type :=
| VFloat (x : Q)
| VInt (n : Z)
| VArray (xs : list Q)
| VReal (x : R).

(** Modelled from the spec: [utils.ReturnTuple], the named-result container
    (not among the module's sources), as the ordered mapping from feature
    name to value that the spec describes, with append, join and lookup by
    name only. *)
Definition ReturnTuple : Type := list (string * value).

Definition rt_append (out : ReturnTuple) (values : list value) (names : list string)
  : ReturnTuple :=
  out ++ combine names values.

Definition rt_join (out other : ReturnTuple) : ReturnTuple := out ++ other.

Fixpoint rt_get (out : ReturnTuple) (key : string) : result value :=
  match out with
  | [] => Raise (KeyError key)
  | (k, v) :: rest => if String.eqb k key then Ok v else rt_get rest key
  end.

Definition rt_names (out : ReturnTuple) : list string := map fst out.

(** ** External collaborators *)

(** Modelled from the spec: [tools.detrend_smoothness_priors] (not among the
    module's sources) takes a sequence and a smoothing factor and returns the
    detrended sequence.  scipy's cubic [interp1d] (built on abscissae and
    ordinates, then evaluated on a grid; [None] when scipy rejects its input
    with a ValueError of its own) and [welch] (signal, sampling frequency,
    segment length; returns the frequency and power axes) are library
    functions and stay parameters as well. *)
Class Collaborators : Type := {
  detrend_smoothness_priors : list Q -> Q -> list Q;
  interp1d_cubic : list Q -> list Q -> list Q -> option (list Q);
  welch : list Q -> Q -> nat -> list Q * list Q
}.

Definition interp1d_msg : string := "scipy.interpolate.interp1d: invalid input".

(** ** Windowed detrender *)

Fixpoint take_sections (sizes : list nat) (l : list Q) : list (list Q) :=
  match sizes with
  | nil => nil
  | k :: ks => firstn k l :: take_sections ks (skipn k l)
  end.

(** [np.array_split(l, n)]: the first [len mod n] sections hold one more
    element than the others. *)
Definition np_array_split (l : list Q) (n : nat) : list (list Q) :=
  let len := length l in
  take_sections (repeat (S (len / n)) (len mod n) ++ repeat (len / n) (n - len mod n))%nat l.

Definition default_win_len : nat := 2000.
Definition default_smoothing_factor : Q := 500.

Definition detrend_window `{Collaborators} (rri : list Q) (win_len : nat) : list Q :=
  let smoothing_factor := default_smoothing_factor in
  if (win_len <? length rri)%nat then
    let splits := (length rri / win_len)%nat in
    let rri_splits := np_array_split rri splits in
    concat (map (fun split => detrend_smoothness_priors split smoothing_factor) rri_splits)
  else detrend_smoothness_priors rri smoothing_factor.

(** ** Histogram-triangle solver *)

(** [np.arange(start, stop, step)] for a positive step. *)
Definition np_arange (start stop step : Q) : list Q :=
  map (fun i => start + inject_Z (Z.of_nat i) * step)
      (seq 0 (Z.to_nat (Qceiling ((stop - start) / step)))).

(** One bin of [np.histogram]: half-open, the last one closed. *)
Definition in_bin (last : bool) (lo hi x : Q) : bool :=
  Qle_bool lo x && (if last then Qle_bool x hi else Qltb x hi).

(** [np.histogram(a, bins)[0]] for an array of bin edges: one count per pair
    of consecutive edges, none when there are fewer than two edges. *)
Fixpoint np_histogram (a : list Q) (bins : list Q) : list Z :=
  match bins with
  | lo :: ((hi :: more) as rest) =>
      Z.of_nat (length (filter (in_bin (match more with nil => true | _ => false end) lo hi) a))
      :: np_histogram a rest
  | _ => nil
  end.

Definition np_max_int (l : list Z) : result Z :=
  match l with
  | [] => Raise (ValueError zero_size_msg)
  | x :: xs => Ok (fold_left Z.max xs x)
  end.

Fixpoint argmax_from (best : Z) (besti i : nat) (l : list Z) : nat :=
  match l with
  | [] => besti
  | x :: xs => if (best <? x)%Z then argmax_from x i (S i) xs
               else argmax_from best besti (S i) xs
  end.

(** [np.argmax]: the first index of the maximum. *)
Definition np_argmax (l : list Z) : nat :=
  match l with
  | [] => O
  | x :: xs => argmax_from x 0 1 xs
  end.

(** scipy's [interp1d] sorts the breakpoints by abscissa with a stable sort. *)
Fixpoint insert_point (p : Q * Q) (l : list (Q * Q)) : list (Q * Q) :=
  match l with
  | [] => [p]
  | q :: r => if Qle_bool (fst p) (fst q) then p :: l else q :: insert_point p r
  end.

Definition sort_points (l : list (Q * Q)) : list (Q * Q) :=
  fold_right insert_point [] l.

(** [np.interp] at one abscissa inside the range: the segment that starts at
    the last breakpoint not above [x]; a breakpoint hit exactly gives its own
    ordinate. *)
Fixpoint np_interp (x : Q) (pts : list (Q * Q)) : Q :=
  match pts with
  | [] => 0
  | (x0, y0) :: rest =>
      match rest with
      | [] => y0
      | (x1, y1) :: _ =>
          if Qle_bool x1 x then np_interp x rest
          else if Qeq_bool x0 x then y0
          else (y1 - y0) / (x1 - x0) * (x - x0) + y0
      end
  end.

(** [interp1d(x=t, y=y, kind='linear')(x_new)] with the default bounds check. *)
Definition interp1d_linear (t y x_new : list Q) : result (list Q) :=
  let pts := sort_points (combine t y) in
  match pts with
  | [] => Raise (ValueError "x and y arrays must have at least 1 entry")
  | (x0, _) :: _ =>
      if existsb (fun x => Qltb x x0) x_new
      then Raise (ValueError "A value in x_new is below the interpolation range.")
      else if existsb (fun x => Qltb (fst (last pts (x0, 0))) x) x_new
      then Raise (ValueError "A value in x_new is above the interpolation range.")
      else Ok (map (fun x => np_interp x pts) x_new)
  end.

(** The best triangle so far: [error_min], [n], [m]. *)
Record triangle : Type := {
  error_min : extended;
  tri_n : Q;
  tri_m : Q
}.

Definition zip_sub (a b : list Q) : list Q :=
  map (fun p => fst p - snd p) (combine a b).

(** The body of the inner loop for one candidate pair [(n_, m_)]. *)
Definition triangle_step (tmin tmax binsize peak_edge max_count : Q)
    (bins hist : list Q) (n_ : Q) (st : result triangle) (m_ : Q) : result triangle :=
  st <- st ;;
  q <- interp1d_linear [tmin; n_; peak_edge; m_; tmax + binsize]
                       [0; 0; max_count; 0; 0] bins ;;
  let error := np_sum (map (fun d => d * d) (zip_sub hist (removelast q))) in
  Ok (if lt_ext error (error_min st)
      then {| error_min := Finite error; tri_n := n_; tri_m := m_ |}
      else st).

Definition triangle_search (tmin tmax binsize peak_edge max_count : Q)
    (bins hist n_values m_values : list Q) : result triangle :=
  fold_left
    (fun st n_ =>
       fold_left (triangle_step tmin tmax binsize peak_edge max_count bins hist n_)
                 m_values st)
    n_values
    (Ok {| error_min := PosInf; tri_n := 0; tri_m := 0 |}).

Definition default_binsize : Q := 1 # 128.

(** The bin edges, the counts and the index of the peak bin. *)
Definition geometrical_bins (rri : list Q) (binsize : Q) : result (list Q) :=
  let binsize := binsize * 1000 in
  tmin <- np_min rri ;;
  tmax <- np_max rri ;;
  Ok (np_arange tmin (tmax + binsize) binsize).

Definition peak_hist (rri : list Q) (binsize : Q) : result nat :=
  bins <- geometrical_bins rri binsize ;;
  Ok (np_argmax (np_histogram rri bins)).

Definition compute_geometrical (rri : list Q) (binsize : Q) : result ReturnTuple :=
  bins <- geometrical_bins rri binsize ;;
  let binsize := binsize * 1000 in
  tmin <- np_min rri ;;
  tmax <- np_max rri ;;
  let nn_hist := np_histogram rri bins in
  max_count <- np_max_int nn_hist ;;
  let peak_hist := np_argmax nn_hist in
  let hti := np_len rri / inject_Z max_count in
  let n_values := firstn peak_hist bins in
  let m_values := skipn (S peak_hist) bins in
  best <- triangle_search tmin tmax binsize (nth peak_hist bins 0) (inject_Z max_count)
            bins (map inject_Z nn_hist) n_values m_values ;;
  let tinn := tri_m best - tri_n best in
  Ok [("hti"%string, VFloat hti); ("tinn"%string, VFloat tinn)].

(** The ValueErrors the solver can raise: numpy's on an empty reduction and
    those of the linear interpolator. *)
Definition solver_error (e : exn) : Prop :=
  e = ValueError zero_size_msg
  \/ e = ValueError "x and y arrays must have at least 1 entry"
  \/ e = ValueError "A value in x_new is below the interpolation range."
  \/ e = ValueError "A value in x_new is above the interpolation range.".

(** ** Standard deviation, Poincare geometry and the entropy estimators *)

Section RealValued.
Local Open Scope R_scope.

Definition Rsum (l : list R) : R := fold_right Rplus 0 l.

Definition Rmean (l : list R) : R := Rsum l / INR (length l).

(** [a.std()]: [sqrt(mean(abs(a - a.mean()) ** 2))]. *)
Definition np_std (l : list R) : R :=
  sqrt (Rmean (map (fun x => Rsqr (Rabs (x - Rmean l))) l)).

Definition Rleb (x y : R) : bool := if Rle_dec x y then true else false.

(** The maximum of a non-empty list (0 for the empty one, on which both
    numpy's [max] and Python's [max] raise: templates are empty only for an
    embedding dimension of 0). *)
Definition Rlist_max (l : list R) : R :=
  match l with
  | [] => 0
  | x :: xs => fold_left Rmax xs x
  end.

(** [np.abs(x - y).max()] and [_maxdist]: the Chebyshev distance. *)
Definition chebyshev (x y : list R) : R :=
  Rlist_max (map (fun p => Rabs (fst p - snd p)) (combine x y)).

(** [rri[i: i + m]]. *)
Definition template (rri : list R) (m i : nat) : list R := firstn m (skipn i rri).

(** [[rri[i: i + m] for i in range(k)]]. *)
Definition templates (rri : list R) (m k : nat) : list (list R) :=
  map (template rri m) (seq 0 k).

(** [np.sum(np.abs(x - xs).max(axis=1) <= r)]. *)
Definition count_matches (r : R) (xs : list (list R)) (x : list R) : nat :=
  length (filter (fun y => Rleb (chebyshev x y) r) xs).

Definition Zsum (l : list Z) : Z := fold_right Z.add 0%Z l.

(** The count [b] of [sample_entropy]; [range(n - m)] and [range(n - m + 1)]
    are empty when their bound is not positive. *)
Definition sampen_b (rri : list R) (m : nat) (r : R) : Z :=
  let n := length rri in
  let xmi := templates rri m (n - m) in
  let xmj := templates rri m (n + 1 - m) in
  Zsum (map (fun xmii => (Z.of_nat (count_matches r xmj xmii) - 1)%Z) xmi).

(** The count [a] of [sample_entropy], after [m += 1]. *)
Definition sampen_a (rri : list R) (m : nat) (r : R) : Z :=
  let n := length rri in
  let m := S m in
  let xm := templates rri m (n + 1 - m) in
  Zsum (map (fun xmi => (Z.of_nat (count_matches r xm xmi) - 1)%Z) xm).

Definition sample_entropy (rri : list R) (m : nat) (r : R) : R :=
  let r := r * np_std rri in
  - ln (IZR (sampen_a rri m r) / IZR (sampen_b rri m r)).

(** The vectors [x] and the list [C] of [_phi(m)]. *)
Definition apen_x (rri : list R) (m : nat) : list (list R) :=
  let n := length rri in
  map (fun i => map (fun j => nth j rri 0) (seq i m)) (seq 0 (n + 1 - m)).

Definition apen_C (rri : list R) (r : R) (m : nat) : list R :=
  let n := length rri in
  let x := apen_x rri m in
  map (fun x_i => INR (count_matches r x x_i) / (INR n - INR m + 1)) x.

(** [(n - m + 1.0) ** (-1) * sum(np.log(C))]. *)
Definition phi (rri : list R) (r : R) (m : nat) : R :=
  let n := length rri in
  / (INR n - INR m + 1) * Rsum (map ln (apen_C rri r m)).

Definition approximate_entropy (rri : list R) (m : nat) (r : R) : R :=
  let r := r * np_std rri in
  phi rri r m - phi rri r (S m).

Definition compute_poincare (rri : list R) : ReturnTuple :=
  let x := removelast rri in
  let y := tl rri in
  let x1 := map (fun p => (fst p - snd p) / sqrt 2) (combine x y) in
  let x2 := map (fun p => (fst p + snd p) / sqrt 2) (combine x y) in
  let sd1 := np_std x1 in
  let sd2 := np_std x2 in
  let s := PI * sd1 * sd2 in
  let sd12 := sd1 / sd2 in
  let sd21 := sd2 / sd1 in
  rt_append [] [VReal s; VReal sd1; VReal sd2; VReal sd12; VReal sd21]
            ["s"; "sd1"; "sd2"; "sd12"; "sd21"]%string.

End RealValued.

(** ** Time-domain extractor *)

(** [if duration is None: duration = np.sum(rri) / 1000.] *)
Definition signal_duration (rri : list Q) (duration : option extended) : extended :=
  match duration with
  | Some d => d
  | None => Finite (np_sum rri / 1000)
  end.

Definition rri_missing_msg : string := "Please specify an RRI list or array.".

Definition td_duration_msg : string :=
  "Signal duration must be greater than 10 seconds to compute time-domain features.".

Definition fd_duration_msg : string :=
  "Signal duration must be greater than 20 seconds to compute frequency-domain features.".

Definition nl_duration_msg : string :=
  "Signal duration must be greater than 90 seconds to compute non-linear features.".

Definition hrv_timedomain `{Collaborators} (rri : option (list Q))
    (duration : option extended) (detrend_rri : bool)
    (rri_detrended : option (list Q)) : result ReturnTuple :=
  match rri with
  | None => Raise (ValueError rri_missing_msg)
  | Some rri =>
    let rri_det :=
      if detrend_rri then
        match rri_detrended with
        | Some det => det
        | None => detrend_window rri default_win_len
        end
      else rri in
    let duration := signal_duration rri duration in
    if ext_ltb duration 10 then Raise (ValueError td_duration_msg) else
    let out : ReturnTuple := [] in
    let rri_diff := np_diff rri_det in
    out <- (if ext_geb duration 10 then
              let hr := map (fun x => 60 / (x / 1000)) rri in
              hr_min <- np_min hr ;;
              hr_max <- np_max hr ;;
              let hr_minmax := hr_max - hr_min in
              let hr_avg := np_mean hr in
              let out := rt_append out
                           [VArray hr; VFloat hr_min; VFloat hr_max;
                            VFloat hr_minmax; VFloat hr_avg]
                           ["hr"; "hr_min"; "hr_max"; "hr_minmax"; "hr_avg"]%string in
              let rr_mean := np_mean rri in
              let rmssd := sqrt (Q2R (np_mean (map (fun d => d * d) rri_diff))) in
              Ok (rt_append out [VFloat rr_mean; VReal rmssd] ["rr_mean"; "rmssd"]%string)
            else Ok out) ;;
    out <- (if ext_geb duration 20 then
              let th50 := 50 in
              let nntot := length rri_diff in
              let nn50 := length (filter (fun d => Qltb th50 (Qabs d)) rri_diff) in
              if (nntot =? 0)%nat then Raise ZeroDivisionError else
              let pnn50 := 100 * (inject_Z (Z.of_nat nn50) / inject_Z (Z.of_nat nntot)) in
              Ok (rt_append out [VInt (Z.of_nat nn50); VFloat pnn50] ["nn50"; "pnn50"]%string)
            else Ok out) ;;
    out <- (if ext_geb duration 60 then
              let sdnn := np_std (map Q2R rri_det) in
              Ok (rt_append out [VReal sdnn] ["sdnn"%string])
            else Ok out) ;;
    (if ext_geb duration 90 then
       g <- compute_geometrical rri default_binsize ;;
       match g with
       | [(_, hti); (_, tinn)] => Ok (rt_append out [hti; tinn] ["hti"; "tinn"]%string)
       | _ => Raise (ValueError "not enough values to unpack")
       end
     else Ok out)
  end.

(** ** Band aggregator and frequency-domain extractor *)

Definition band_table : Type := list (string * (Q * Q)).

Definition FBANDS : band_table :=
  [("ulf", (0, 0.003)); ("vlf", (0.003, 0.04)); ("lf", (0.04, 0.15));
   ("hf", (0.15, 0.4)); ("vhf", (0.4, 0.5))]%string.

(** [a[i]] and [a[idx]] for an index array: IndexError out of range. *)
Definition np_index (a : list Q) (i : nat) : result Q :=
  match nth_error a i with
  | Some x => Ok x
  | None => Raise IndexError
  end.

Fixpoint np_take (a : list Q) (idx : list nat) : result (list Q) :=
  match idx with
  | [] => Ok []
  | i :: rest =>
      x <- np_index a i ;;
      xs <- np_take a rest ;;
      Ok (x :: xs)
  end.

Definition in_band (lo hi f : Q) : bool := Qle_bool lo f && Qle_bool f hi.

(** [np.argwhere((frequencies >= lo) & (frequencies <= hi)).reshape(-1)]. *)
Definition band_indices (frequencies : list Q) (lo hi : Q) : list nat :=
  filter (fun i => in_band lo hi (nth i frequencies 0)) (seq 0 (length frequencies)).

Fixpoint argmax_from_Q (best : Q) (besti i : nat) (l : list Q) : nat :=
  match l with
  | [] => besti
  | x :: xs => if Qltb best x then argmax_from_Q x i (S i) xs
               else argmax_from_Q best besti (S i) xs
  end.

Definition np_argmax_Q (l : list Q) : nat :=
  match l with
  | [] => O
  | x :: xs => argmax_from_Q x 0 1 xs
  end.

(** The body of the loop over the bands. *)
Definition fband_step (frequencies powers : list Q) (df total_pwr : Q)
    (out : result ReturnTuple) (entry : string * (Q * Q)) : result ReturnTuple :=
  out <- out ;;
  let fband := fst entry in
  let band := band_indices frequencies (fst (snd entry)) (snd (snd entry)) in
  if (length band =? 0)%nat then Ok out else
  selected <- np_take powers band ;;
  let pwr := np_sum selected * df in
  at_band <- np_take frequencies band ;;
  peak <- np_index at_band (np_argmax_Q selected) ;;
  let rpwr := pwr / total_pwr in
  Ok (rt_append out [VFloat pwr; VFloat peak; VFloat rpwr]
                [fband ++ "_pwr"; fband ++ "_peak"; fband ++ "_rpwr"]%string).

Definition compute_fbands (frequencies powers : list Q) (fbands : option band_table)
  : result ReturnTuple :=
  f1 <- np_index frequencies 1 ;;
  f0 <- np_index frequencies 0 ;;
  let df := f1 - f0 in
  let total_pwr := np_sum powers * df in
  let fbands := match fbands with Some t => t | None => FBANDS end in
  fold_left (fband_step frequencies powers df total_pwr) fbands (Ok []).

(** The relative powers of an aggregator output: the third value of each
    emitted band. *)
Fixpoint relative_powers (out : ReturnTuple) : list Q :=
  match out with
  | _ :: _ :: (_, VFloat rpwr) :: rest => rpwr :: relative_powers rest
  | _ => []
  end.

Definition as_float (v : value) : result Q :=
  match v with
  | VFloat x => Ok x
  | VInt n => Ok (inject_Z n)
  | _ => Raise (TypeError "unsupported operand type(s)")
  end.

Fixpoint np_cumsum_from (acc : Q) (l : list Q) : list Q :=
  match l with
  | [] => []
  | x :: xs => (acc + x) :: np_cumsum_from (acc + x) xs
  end.

Definition np_cumsum (l : list Q) : list Q := np_cumsum_from 0 l.

Definition hrv_frequencydomain `{Collaborators} (rri : option (list Q))
    (duration : option extended) (freq_method : string) (fbands : option band_table)
    (detrend_rri : bool) (frs : option Q) : result ReturnTuple :=
  match rri with
  | None => Raise (TypeError rri_missing_msg)
  | Some rri =>
    if negb (existsb (String.eqb freq_method) ["FFT"%string])
    then Raise (ValueError ("'" ++ freq_method ++
                            "' is not an available input. Choose one from: ['FFT']."))
    else
    let fbands := match fbands with Some t => t | None => FBANDS end in
    let duration := signal_duration rri duration in
    if ext_ltb duration 20 then Raise (ValueError fd_duration_msg) else
    let out : ReturnTuple := [] in
    let frs := match frs with Some f => f | None => 4 end in
    let t := np_cumsum rri in
    t0 <- np_index t 0 ;;
    let t := map (fun x => x - t0) t in
    let t_inter := np_arange (hd 0 t) (last t 0) (1000 / frs) in
    rri_inter <- match interp1d_cubic t rri t_inter with
                 | Some v => Ok v
                 | None => Raise (ValueError interp1d_msg)
                 end ;;
    let rri_inter :=
      if detrend_rri then detrend_window rri_inter default_win_len else rri_inter in
    if ext_geb duration 20 then
      let spectrum := welch rri_inter frs 300 in
      fb_out <- compute_fbands (fst spectrum) (snd spectrum) None ;;
      let out := rt_join out fb_out in
      lf_pwr <- (v <- rt_get fb_out "lf_pwr" ;; as_float v) ;;
      hf_pwr <- (v <- rt_get fb_out "hf_pwr" ;; as_float v) ;;
      let lf_hf := lf_pwr / hf_pwr in
      let out := rt_append out [VFloat lf_hf] ["lf_hf"%string] in
      let lf_nu := lf_pwr / (lf_pwr + hf_pwr) in
      let hf_nu := 1 - lf_nu in
      Ok (rt_append out [VFloat lf_nu; VFloat hf_nu] ["lf_nu"; "hf_nu"]%string)
    else Ok out
  end.

(** ** Non-linear extractor *)

Definition hrv_nonlinear `{Collaborators} (rri : option (list Q))
    (duration : option extended) (detrend_rri : bool) : result ReturnTuple :=
  match rri with
  | None => Raise (TypeError rri_missing_msg)
  | Some rri =>
    let duration := signal_duration rri duration in
    if ext_ltb duration 90 then Raise (ValueError nl_duration_msg) else
    let rri := if detrend_rri then detrend_window rri default_win_len else rri in
    let out : ReturnTuple := [] in
    let out :=
      if ext_geb duration 90 then
        let cp := compute_poincare (map Q2R rri) in
        let out := rt_join out cp in
        let sampen := sample_entropy (map Q2R rri) 2 (Q2R 0.2) in
        rt_append out [VReal sampen] ["sampen"%string]
      else out in
    let out :=
      if (800 <=? length rri)%nat then
        let appen := approximate_entropy (map Q2R rri) 2 (Q2R 0.2) in
        rt_append out [VReal appen] ["appen"%string]
      else out in
    Ok out
  end.

(** ** Pipeline orchestrator *)

Definition parameters_list : list string :=
  ["auto"; "time"; "frequency"; "non-linear"; "all"]%string.

Definition member (x : string) (l : list string) : bool := existsb (String.eqb x) l.

(** What [hrv] has established when it starts extracting features. *)
Record prepared : Type := {
  p_rri : list Q;
  p_duration : extended;
  p_rri_det : option (list Q);
  p_warnings : list string
}.

(** The first part of [hrv], up to and including the override of the
    duration for the selector 'all'. *)
Definition hrv_prepare `{Collaborators} (rpeaks : option (list Q)) (sampling_rate : Q)
    (rri : option (list Q)) (parameters : string) (filter_rri detrend_rri : bool)
  : result prepared :=
  match rpeaks, rri with
  | None, None => Raise (TypeError "Please specify an R-Peak or RRI list or array.")
  | _, _ =>
    if negb (member parameters parameters_list)
    then Raise (ValueError ("'" ++ parameters ++
                            "' is not an available input. Enter one from: " ++
                            "['auto', 'time', 'frequency', 'non-linear', 'all']."))
    else
    computed <- match rri, rpeaks with
                | Some rri, _ => Ok (rri, [])
                | None, Some rpeaks => compute_rri rpeaks sampling_rate
                | None, None => Raise (TypeError "unreachable")
                end ;;
    let rri := fst computed in
    let duration := Finite (np_sum rri / 1000) in
    let rri := if filter_rri then rri_filter rri default_threshold else rri in
    let rri_det :=
      if detrend_rri then Some (detrend_window rri default_win_len) else None in
    let duration := if String.eqb parameters "all" then PosInf else duration in
    Ok {| p_rri := rri; p_duration := duration; p_rri_det := rri_det;
          p_warnings := snd computed |}
  end.

Definition td_notice : string :=
  "Time-domain features not computed. The signal is not long enough.".
Definition fd_notice : string :=
  "Frequency-domain features not computed. The signal is not long enough.".
Definition nl_notice : string :=
  "Non-linear features not computed. The signal is not long enough.".

(** [try: out = out.join(family) except ValueError: print(notice)]; any
    other exception propagates. *)
Definition try_family (st : ReturnTuple * list string) (family : result ReturnTuple)
    (notice : string) : result (ReturnTuple * list string) :=
  match family with
  | Ok features => Ok (rt_join (fst st) features, snd st)
  | Raise (ValueError _) => Ok (fst st, snd st ++ [notice])
  | Raise e => Raise e
  end.

(** The second part of [hrv]: the three families, each under its own
    [try]. *)
Definition hrv_features `{Collaborators} (parameters : string) (detrend_rri : bool)
    (p : prepared) : result (ReturnTuple * list string) :=
  let rri := p_rri p in
  let duration := p_duration p in
  let out := rt_append [] [VArray rri] ["rri"%string] in
  st <- (if member parameters ["time"; "auto"; "all"]%string
         then try_family (out, p_warnings p)
                (hrv_timedomain (Some rri) (Some duration) detrend_rri (p_rri_det p))
                td_notice
         else Ok (out, p_warnings p)) ;;
  st <- (if member parameters ["frequency"; "auto"; "all"]%string
         then try_family st
                (hrv_frequencydomain (Some rri) (Some duration) "FFT" None detrend_rri None)
                fd_notice
         else Ok st) ;;
  (if member parameters ["non-linear"; "auto"; "all"]%string
   then try_family st (hrv_nonlinear (Some rri) (Some duration) detrend_rri) nl_notice
   else Ok st).

(** [hrv]: the feature set and the messages (warnings, then notices). *)
Definition hrv `{Collaborators} (rpeaks : option (list Q)) (sampling_rate : Q)
    (rri : option (list Q)) (parameters : string) (filter_rri detrend_rri : bool)
  : result (ReturnTuple * list string) :=
  p <- hrv_prepare rpeaks sampling_rate rri parameters filter_rri detrend_rri ;;
  hrv_features parameters detrend_rri p.

(** The intervals [hrv] starts from: those supplied, which override the
    beats, or else those built from the beats. *)
Definition input_intervals (rpeaks : option (list Q)) (sampling_rate : Q)
    (rri : option (list Q)) (rri0 : list Q) : Prop :=
  rri = Some rri0
  \/ (rri = None
      /\ exists beats w, rpeaks = Some beats
                         /\ compute_rri beats sampling_rate = Ok (rri0, w)).

(** * Properties *)

Lemma Qltb_lt (x y : Q) : Qltb x y = true <-> x < y.
Proof.
  unfold Qltb. rewrite negb_true_iff.
  split; intro H.
  - apply Qnot_le_lt. intro Hle. apply Qle_bool_iff in Hle. congruence.
  - destruct (Qle_bool y x) eqn:E; [|reflexivity].
    apply Qle_bool_iff in E. exfalso. exact (Qlt_not_le _ _ H E).
Qed.

Lemma rri_filter_subseq (rri : list Q) (threshold : Q) :
  subseq (rri_filter rri threshold) rri.
Proof.
  unfold rri_filter.
  induction rri as [|x l IH]; simpl.
  - constructor.
  - destruct (Qltb x threshold); now constructor.
Qed.

(** C6. The filter returns an order-preserving subsequence of its input,
    every retained interval is strictly below the threshold, and filtering
    a second time with the same threshold changes nothing. *)
Theorem rri_filter_subsequence_below_idempotent (rri : list Q) (threshold : Q) :
  subseq (rri_filter rri threshold) rri
  /\ Forall (fun x => x < threshold) (rri_filter rri threshold)
  /\ rri_filter (rri_filter rri threshold) threshold = rri_filter rri threshold.
Proof.
  split; [apply rri_filter_subseq|]. split.
  - apply Forall_forall. intros x Hx.
    apply filter_In in Hx. now apply Qltb_lt.
  - unfold rri_filter. induction rri as [|x l IH]; simpl; [reflexivity|].
    destruct (Qltb x threshold) eqn:E; simpl; [rewrite E, IH|]; auto.
Qed.

(** ** Comparisons *)

Lemma ext_ltb_lt (d : extended) (k : Q) : ext_ltb d k = true <-> ext_lt d k.
Proof.
  destruct d; simpl; [apply Qltb_lt|]. split; [discriminate|tauto].
Qed.

Lemma ext_geb_ge (d : extended) (k : Q) : ext_geb d k = true <-> ext_ge d k.
Proof.
  destruct d; simpl; [apply Qle_bool_iff|]. tauto.
Qed.

Lemma ext_ltb_false_ge (d : extended) (k : Q) : ext_ltb d k = false <-> ext_ge d k.
Proof.
  destruct d as [q|]; simpl; [|tauto].
  unfold Qltb. rewrite negb_false_iff. apply Qle_bool_iff.
Qed.

Lemma ext_lt_not_ge (d : extended) (k : Q) : ext_lt d k <-> ~ ext_ge d k.
Proof.
  destruct d as [q|]; simpl; [|tauto].
  split; [apply Qlt_not_le | apply Qnot_le_lt].
Qed.

(** ** Interval builder *)

Lemma np_diff_length (l : list Q) : length (np_diff l) = (length l - 1)%nat.
Proof.
  induction l as [|a [|b t] IH]; simpl in *; try reflexivity.
  rewrite IH. lia.
Qed.

(** The builder never rejects two or more beats: it returns the intervals,
    one fewer than the beats, with or without the warning. *)
Lemma compute_rri_returns (rpeaks : list Q) (sampling_rate : Q) :
  (2 <= length rpeaks)%nat ->
  exists rri w, compute_rri rpeaks sampling_rate = Ok (rri, w)
                /\ length rri = (length rpeaks - 1)%nat
                /\ (w = [] \/ w = [rri_warning]).
Proof.
  intros Hlen. unfold compute_rri.
  destruct (np_diff rpeaks) as [|d ds] eqn:E.
  - pose proof (np_diff_length rpeaks) as HL. rewrite E in HL. simpl in HL. lia.
  - simpl. eexists. eexists. split; [reflexivity|]. split.
    + pose proof (np_diff_length rpeaks) as HL. rewrite E in HL.
      simpl in *. rewrite length_map. lia.
    + match goal with |- context [if ?b then _ else _] => destruct b end; auto.
Qed.

(** C8. Beats at samples 0, 800 and 2800 (1000 Hz) give the intervals 800 ms
    and 2000 ms; the second lies above 1400 ms, yet the builder returns them
    without any warning, because only the minimum is compared with both
    bounds. *)
Theorem compute_rri_tests_only_the_minimum :
  exists rri,
    compute_rri [0; 800; 2800] 1000 = Ok (rri, [])
    /\ Exists (fun x => 1400 < x) rri.
Proof.
  eexists. split; [vm_compute; reflexivity|].
  apply Exists_cons_tl. apply Exists_cons_hd. reflexivity.
Qed.

(** ** Exceptions of the histogram-triangle solver *)

Lemma interp1d_linear_raise (t y x_new : list Q) (e : exn) :
  interp1d_linear t y x_new = Raise e -> solver_error e.
Proof.
  unfold interp1d_linear, solver_error.
  destruct (sort_points (combine t y)) as [|[x0 y0] pts].
  - intros [= <-]. auto.
  - destruct (existsb _ x_new); [intros [= <-]; auto|].
    destruct (existsb _ x_new); [intros [= <-]; auto|discriminate].
Qed.

Lemma triangle_step_raise tmin tmax binsize peak_edge max_count bins hist n_ st m_ e :
  triangle_step tmin tmax binsize peak_edge max_count bins hist n_ st m_ = Raise e ->
  st = Raise e \/ solver_error e.
Proof.
  unfold triangle_step. destruct st as [s|e']; simpl; [|intros [= ->]; auto].
  destruct (interp1d_linear _ _ bins) eqn:E; simpl; [discriminate|].
  intros [= <-]. right. eapply interp1d_linear_raise; eauto.
Qed.

Lemma triangle_inner_raise tmin tmax binsize peak_edge max_count bins hist n_ ms st e :
  fold_left (triangle_step tmin tmax binsize peak_edge max_count bins hist n_) ms st
    = Raise e ->
  st = Raise e \/ solver_error e.
Proof.
  revert st. induction ms as [|m_ ms IH]; simpl; intros st Hr; [auto|].
  apply IH in Hr. destruct Hr as [Hr|Hr]; [|auto].
  eapply triangle_step_raise; eauto.
Qed.

Lemma triangle_outer_raise tmin tmax binsize peak_edge max_count bins hist ns ms st e :
  fold_left
    (fun st n_ =>
       fold_left (triangle_step tmin tmax binsize peak_edge max_count bins hist n_) ms st)
    ns st = Raise e ->
  st = Raise e \/ solver_error e.
Proof.
  revert st. induction ns as [|n_ ns IH]; simpl; intros st Hr; [auto|].
  apply IH in Hr. destruct Hr as [Hr|Hr]; [|auto].
  eapply triangle_inner_raise; eauto.
Qed.

Lemma compute_geometrical_raise (rri : list Q) (binsize : Q) (e : exn) :
  compute_geometrical rri binsize = Raise e -> solver_error e.
Proof.
  unfold compute_geometrical, geometrical_bins.
  destruct rri as [|x xs]; simpl; [intros [= <-]; left; reflexivity|].
  destruct (np_max_int _) as [mc|e'] eqn:Emax; simpl.
  - destruct (triangle_search _ _ _ _ _ _ _ _ _) as [best|e'] eqn:Es; simpl;
      [discriminate|].
    intros [= <-]. unfold triangle_search in Es.
    apply triangle_outer_raise in Es. destruct Es as [Es|Es]; [discriminate|auto].
  - intros [= <-]. unfold np_max_int in Emax.
    destruct (np_histogram _ _); [|discriminate].
    injection Emax as <-. left; reflexivity.
Qed.

Lemma solver_error_not_duration (e : exn) :
  solver_error e -> e <> ValueError td_duration_msg.
Proof.
  intros [-> | [-> | [-> | ->]]]; discriminate.
Qed.

(** ** Time-domain extractor *)

Section TimeDomain.
Context `{Collaborators}.

Lemma hrv_timedomain_gates (rri : list Q) (duration : option extended)
    (detrend_rri : bool) (rri_detrended : option (list Q)) :
  let d := signal_duration rri duration in
  let run := hrv_timedomain (Some rri) duration detrend_rri rri_detrended in
  (run = Raise (ValueError td_duration_msg) <-> ext_ltb d 10 = true)
  /\ (forall out, run = Ok out ->
        (In "nn50"%string (rt_names out) <-> ext_geb d 20 = true)
        /\ (In "pnn50"%string (rt_names out) <-> ext_geb d 20 = true)
        /\ (In "sdnn"%string (rt_names out) <-> ext_geb d 60 = true)
        /\ (In "hti"%string (rt_names out) <-> ext_geb d 90 = true)
        /\ (In "tinn"%string (rt_names out) <-> ext_geb d 90 = true)).
Proof.
  intros d run. subst run. unfold hrv_timedomain. fold d.
  destruct (ext_ltb d 10) eqn:E10.
  - split; [|discriminate].
    split; [reflexivity|reflexivity].
  - pose proof (compute_geometrical_raise rri default_binsize) as Hg.
    assert (G10 : ext_geb d 10 = true).
    { apply ext_geb_ge. now apply ext_ltb_false_ge. }
    rewrite G10.
    destruct (map (fun x : Q => 60 / (x / 1000)) rri) as [|h hs]; simpl.
    + split; [|discriminate].
      split; discriminate.
    + destruct (ext_geb d 20), (ext_geb d 60), (ext_geb d 90); simpl;
      try destruct (Nat.eqb _ 0); simpl;
      try destruct (compute_geometrical rri default_binsize)
        as [[|[k1 v1] [|[k2 v2] [|]]]|e3]; simpl.
      all: (split;
        [ split; [intros Heq|discriminate];
          try discriminate;
          try (exfalso; injection Heq as Heq;
               exact (solver_error_not_duration _ (Hg _ eq_refl) Heq))
        | intros out Hout; try discriminate;
          injection Hout as <-;
          cbv [rt_names rt_append combine app map fst In];
          repeat split; intros Hin; try reflexivity; try discriminate;
          repeat (destruct Hin as [Hin|Hin]; try discriminate); auto 20 ]).
Qed.

(** C7 (as amended).  The extractor raises its insufficient-duration error
    exactly when the duration is below 10 s, and whenever it returns, nn50 and
    pnn50 are present exactly when the duration is at least 20 s, sdnn exactly
    when it is at least 60 s, hti and tinn exactly when it is at least 90 s. *)
Theorem hrv_timedomain_duration_tiers (rri : list Q) (duration : option extended)
    (detrend_rri : bool) (rri_detrended : option (list Q)) :
  let d := signal_duration rri duration in
  let run := hrv_timedomain (Some rri) duration detrend_rri rri_detrended in
  (run = Raise (ValueError td_duration_msg) <-> ext_lt d 10)
  /\ (forall out, run = Ok out ->
        (In "nn50"%string (rt_names out) <-> ext_ge d 20)
        /\ (In "pnn50"%string (rt_names out) <-> ext_ge d 20)
        /\ (In "sdnn"%string (rt_names out) <-> ext_ge d 60)
        /\ (In "hti"%string (rt_names out) <-> ext_ge d 90)
        /\ (In "tinn"%string (rt_names out) <-> ext_ge d 90)).
Proof.
  intros d run.
  destruct (hrv_timedomain_gates rri duration detrend_rri rri_detrended) as [Herr Hout].
  fold d in Herr, Hout. fold run in Herr, Hout.
  split.
  - rewrite Herr. apply ext_ltb_lt.
  - intros out Hrun. specialize (Hout out Hrun).
    rewrite <- !ext_geb_ge. exact Hout.
Qed.

End TimeDomain.

(** A signal of 24 s (thirty intervals of 800 ms) reaches the second tier
    only. *)
Example hrv_timedomain_24s `{Collaborators} :
  exists out,
    hrv_timedomain (Some (repeat 800 30)) None false None = Ok out
    /\ rt_names out = ["hr"; "hr_min"; "hr_max"; "hr_minmax"; "hr_avg"; "rr_mean";
                       "rmssd"; "nn50"; "pnn50"]%string.
Proof.
  eexists. split; reflexivity.
Qed.

(** C7, counterexample.  With every interval filtered away and a duration of
    120 s, well above 10 s, the extractor still raises: numpy refuses the
    minimum of the empty heart-rate array. *)
Lemma hrv_timedomain_raises_on_long_empty_signal :
  ext_ge (Finite 120) 10
  /\ forall C : Collaborators,
       @hrv_timedomain C (Some []) (Some (Finite 120)) false None
       = Raise (ValueError zero_size_msg).
Proof.
  split; [discriminate|]. intros C. reflexivity.
Qed.

(** ** Histogram-triangle solver: the sign of TINN *)

Definition searched (st : triangle) : Prop := exists e, error_min st = Finite e.

(** Either nothing was searched, or the retained pair comes from the
    candidate lists. *)
Definition triangle_inv (ns ms : list Q) (st : triangle) : Prop :=
  (error_min st = PosInf /\ tri_n st = 0 /\ tri_m st = 0)
  \/ (searched st /\ In (tri_n st) ns /\ In (tri_m st) ms).

Definition holds (P : triangle -> Prop) (r : result triangle) : Prop :=
  match r with
  | Ok st => P st
  | Raise _ => True
  end.

Section TriangleSearch.
Variables (tmin tmax binsize peak_edge max_count : Q) (bins hist : list Q).
Variables (ns ms : list Q).

Let step := triangle_step tmin tmax binsize peak_edge max_count bins hist.

Lemma triangle_step_inv n_ m_ st :
  In n_ ns -> In m_ ms ->
  holds (triangle_inv ns ms) st -> holds (triangle_inv ns ms) (step n_ st m_).
Proof.
  intros Hn Hm Hst. unfold step, triangle_step.
  destruct st as [s|e]; simpl; [|exact I].
  destruct (interp1d_linear _ _ bins); simpl; [|exact I].
  destruct (lt_ext _ (error_min s)); [|exact Hst].
  right. simpl. split; [eexists; reflexivity|auto].
Qed.

Lemma triangle_step_searched n_ m_ st :
  holds searched (step n_ st m_).
Proof.
  unfold step, triangle_step.
  destruct st as [s|e]; simpl; [|exact I].
  destruct (interp1d_linear _ _ bins); simpl; [|exact I].
  destruct (error_min s) as [q|] eqn:E; simpl.
  - destruct (Qltb _ q); [eexists; reflexivity|eexists; exact E].
  - eexists; reflexivity.
Qed.

Lemma triangle_step_keeps_searched n_ m_ st :
  holds searched st -> holds searched (step n_ st m_).
Proof. intros _. apply triangle_step_searched. Qed.

Lemma inner_inv n_ ms' st :
  In n_ ns -> incl ms' ms ->
  holds (triangle_inv ns ms) st ->
  holds (triangle_inv ns ms) (fold_left (step n_) ms' st).
Proof.
  intros Hn. revert st. induction ms' as [|m_ ms' IH]; simpl; intros st Hi Hst; [exact Hst|].
  apply IH.
  - intros x Hx. apply Hi. now right.
  - apply triangle_step_inv; auto. apply Hi. now left.
Qed.

Lemma inner_keeps_searched n_ ms' st :
  holds searched st -> holds searched (fold_left (step n_) ms' st).
Proof.
  revert st. induction ms' as [|m_ ms' IH]; simpl; intros st Hst; [exact Hst|].
  apply IH. apply triangle_step_searched.
Qed.

Lemma inner_searched n_ ms' st :
  ms' <> [] -> holds searched (fold_left (step n_) ms' st).
Proof.
  destruct ms' as [|m_ ms']; [congruence|]. intros _. simpl.
  apply inner_keeps_searched. apply triangle_step_searched.
Qed.

Lemma outer_inv ns' st :
  incl ns' ns ->
  holds (triangle_inv ns ms) st ->
  holds (triangle_inv ns ms)
        (fold_left (fun st n_ => fold_left (step n_) ms st) ns' st).
Proof.
  revert st. induction ns' as [|n_ ns' IH]; simpl; intros st Hi Hst; [exact Hst|].
  apply IH.
  - intros x Hx. apply Hi. now right.
  - apply inner_inv; auto; [apply Hi; now left|apply incl_refl].
Qed.

Lemma outer_keeps_searched ns' st :
  holds searched st ->
  holds searched (fold_left (fun st n_ => fold_left (step n_) ms st) ns' st).
Proof.
  revert st. induction ns' as [|n_ ns' IH]; simpl; intros st Hst; [exact Hst|].
  apply IH. now apply inner_keeps_searched.
Qed.

Lemma triangle_search_inv :
  holds (triangle_inv ns ms)
        (triangle_search tmin tmax binsize peak_edge max_count bins hist ns ms).
Proof.
  unfold triangle_search. apply (outer_inv ns); [apply incl_refl|].
  left. simpl. auto.
Qed.

Lemma triangle_search_searched :
  ns <> [] -> ms <> [] ->
  holds searched
        (triangle_search tmin tmax binsize peak_edge max_count bins hist ns ms).
Proof.
  unfold triangle_search. destruct ns as [|n_ ns']; [congruence|].
  intros _ Hms. simpl.
  apply outer_keeps_searched. now apply inner_searched.
Qed.

End TriangleSearch.

Lemma in_firstn_seq (p s k i : nat) :
  In i (firstn p (seq s k)) -> (s <= i < s + p)%nat.
Proof.
  revert s k. induction p as [|p IH]; intros s k; simpl; [tauto|].
  destruct k as [|k]; simpl; [tauto|].
  intros [<- | Hin]; [lia|]. apply IH in Hin. lia.
Qed.

Lemma np_arange_ordered (start stop step : Q) (p : nat) (n m : Q) :
  0 < step ->
  In n (firstn p (np_arange start stop step)) ->
  In m (skipn (S p) (np_arange start stop step)) ->
  n < m.
Proof.
  intros Hstep Hn Hm. unfold np_arange in *.
  rewrite firstn_map in Hn. rewrite skipn_map, skipn_seq in Hm.
  apply in_map_iff in Hn. destruct Hn as [i [<- Hi]].
  apply in_map_iff in Hm. destruct Hm as [j [<- Hj]].
  apply in_firstn_seq in Hi. apply in_seq in Hj.
  apply Qplus_lt_r. apply Qmult_lt_compat_r; [exact Hstep|].
  rewrite <- Zlt_Qlt. lia.
Qed.

Lemma np_histogram_length (a bins : list Q) :
  length (np_histogram a bins) = (length bins - 1)%nat.
Proof.
  induction bins as [|lo [|hi more] IH]; simpl in *; try reflexivity.
  rewrite IH. lia.
Qed.

Lemma argmax_from_bound (l : list Z) (best : Z) (besti i : nat) :
  (besti < i)%nat -> (argmax_from best besti i l < i + length l)%nat.
Proof.
  revert best besti i. induction l as [|x xs IH]; simpl; intros best besti i Hlt; [lia|].
  destruct (best <? x)%Z.
  - specialize (IH x i (S i)). lia.
  - specialize (IH best besti (S i)). lia.
Qed.

Lemma np_argmax_bound (l : list Z) : l <> [] -> (np_argmax l < length l)%nat.
Proof.
  destruct l as [|x xs]; [congruence|]. intros _. simpl.
  pose proof (argmax_from_bound xs x 0 1). lia.
Qed.

(** C3 (as amended).  Whenever the solver returns, TINN is not negative, and
    it is zero exactly when the peak bin is the first bin of the histogram,
    where no left edge is a candidate and the initial [m - n = 0 - 0] is
    kept. *)
Theorem compute_geometrical_tinn_sign (rri : list Q) (binsize hti tinn : Q) :
  0 < binsize ->
  compute_geometrical rri binsize
    = Ok [("hti"%string, VFloat hti); ("tinn"%string, VFloat tinn)] ->
  0 <= tinn /\ (tinn == 0 <-> peak_hist rri binsize = Ok 0%nat).
Proof.
  intros Hb. unfold compute_geometrical, peak_hist, geometrical_bins.
  destruct rri as [|x xs]; simpl; [discriminate|].
  set (tmin := fold_left qmin xs x). set (tmax := fold_left qmax xs x).
  set (bins := np_arange tmin (tmax + binsize * 1000) (binsize * 1000)).
  set (hist := np_histogram (x :: xs) bins).
  destruct (np_max_int hist) as [mc|e] eqn:Emax; simpl; [|discriminate].
  set (p := np_argmax hist).
  pose proof (triangle_search_inv tmin tmax (binsize * 1000) (nth p bins 0)
                (inject_Z mc) bins (map inject_Z hist)
                (firstn p bins) (skipn (S p) bins)) as Hinv.
  pose proof (triangle_search_searched tmin tmax (binsize * 1000) (nth p bins 0)
                (inject_Z mc) bins (map inject_Z hist)
                (firstn p bins) (skipn (S p) bins)) as Hs.
  destruct (triangle_search _ _ _ _ _ _ _ _ _) as [best|e]; simpl; [|discriminate].
  intros Heq. injection Heq as _ Htinn. cbn [holds] in Hinv, Hs.
  assert (Hstep : 0 < binsize * 1000).
  { apply Qmult_lt_0_compat; [exact Hb|reflexivity]. }
  assert (Hne : hist <> []).
  { intros E. rewrite E in Emax. discriminate. }
  assert (Hp : (p < length bins - 1)%nat).
  { unfold p. rewrite <- (np_histogram_length (x :: xs) bins). now apply np_argmax_bound. }
  destruct Hinv as [[Einf [En Em]] | [Hfin [Hn Hm]]].
  - (* nothing searched: the peak is the first bin *)
    assert (p = 0%nat) as Hp0.
    { destruct (Nat.eq_dec p 0) as [E0|Hnz]; [exact E0|]. exfalso.
      assert (Hsearched : searched best).
      { apply Hs; intros E; apply (f_equal (@length Q)) in E.
        - rewrite length_firstn in E. simpl in E. lia.
        - rewrite length_skipn in E. simpl in E. lia. }
      destruct Hsearched as [e He]. congruence. }
    rewrite Hp0. rewrite <- Htinn, En, Em.
    split; [discriminate|]. split; reflexivity.
  - pose proof (np_arange_ordered _ _ _ _ _ _ Hstep Hn Hm) as Hlt.
    assert (Hpos : 0 < tinn).
    { rewrite <- Htinn. unfold Qminus. rewrite <- (Qplus_opp_r (tri_n best)).
      apply Qplus_lt_l. exact Hlt. }
    split; [now apply Qlt_le_weak|].
    split.
    + intros E. rewrite E in Hpos. discriminate.
    + intros E. injection E as E. rewrite E in Hn. destruct Hn.
Qed.

(** C3, witness of the sign theorem on five intervals. *)
Lemma compute_geometrical_tinn_sign_witness :
  exists hti tinn,
    compute_geometrical [500; 520; 510; 530; 515] default_binsize
      = Ok [("hti"%string, VFloat hti); ("tinn"%string, VFloat tinn)]
    /\ 0 <= tinn
    /\ (tinn == 0 <-> peak_hist [500; 520; 510; 530; 515] default_binsize = Ok 0%nat).
Proof.
  eexists. eexists. split; [vm_compute; reflexivity|].
  apply (compute_geometrical_tinn_sign [500; 520; 510; 530; 515] default_binsize
           (5 # 2)); [reflexivity|vm_compute; reflexivity].
Defined.

(** C3, counterexample.  Two intervals of 800 ms and one of 900 ms give a
    histogram of thirteen bins whose peak is the first one: TINN is 0 although
    the histogram is far from a single bin. *)
Lemma tinn_zero_on_thirteen_bins :
  compute_geometrical [800; 800; 900] default_binsize
    = Ok [("hti"%string, VFloat (3 # 2)); ("tinn"%string, VFloat 0)]
  /\ exists bins,
       geometrical_bins [800; 800; 900] default_binsize = Ok bins
       /\ length (np_histogram [800; 800; 900] bins) = 13%nat.
Proof.
  split; [vm_compute; reflexivity|].
  eexists. split; [reflexivity|vm_compute; reflexivity].
Qed.

(** ** Sums of rationals *)

Lemma np_sum_map_ext {A : Type} (f g : A -> Q) (l : list A) :
  (forall x, In x l -> f x == g x) -> np_sum (map f l) == np_sum (map g l).
Proof.
  induction l as [|a l IH]; simpl; intros Hfg; [reflexivity|].
  rewrite (Hfg a), IH; [reflexivity| |]; auto.
Qed.

Lemma np_sum_map_plus {A : Type} (f g : A -> Q) (l : list A) :
  np_sum (map f l) + np_sum (map g l) == np_sum (map (fun x => f x + g x) l).
Proof.
  induction l as [|a l IH]; simpl; [reflexivity|]. rewrite <- IH. ring.
Qed.

Lemma np_sum_map_scale {A : Type} (f : A -> Q) (c : Q) (l : list A) :
  np_sum (map (fun x => f x * c) l) == np_sum (map f l) * c.
Proof.
  induction l as [|a l IH]; simpl; [ring|]. rewrite IH. ring.
Qed.

Lemma np_sum_map_le {A : Type} (f g : A -> Q) (l : list A) :
  (forall x, In x l -> f x <= g x) -> np_sum (map f l) <= np_sum (map g l).
Proof.
  induction l as [|a l IH]; simpl; intros Hfg; [apply Qle_refl|].
  apply Qplus_le_compat; auto.
Qed.

Lemma np_sum_map_lt {A : Type} (f g : A -> Q) (l : list A) (a : A) :
  (forall x, In x l -> f x <= g x) -> In a l -> f a < g a ->
  np_sum (map f l) < np_sum (map g l).
Proof.
  induction l as [|b l IH]; simpl; intros Hfg Hin Hlt; [contradiction|].
  destruct Hin as [-> | Hin].
  - apply Qplus_lt_le_compat; [exact Hlt|]. apply np_sum_map_le. auto.
  - assert (H1 : f b <= g b) by auto.
    assert (H2 : np_sum (map f l) < np_sum (map g l)) by (apply IH; auto).
    lra.
Qed.

Lemma np_sum_filter {A : Type} (p : A -> Q) (sel : A -> bool) (l : list A) :
  np_sum (map p (filter sel l))
  == np_sum (map (fun i => if sel i then p i else 0) l).
Proof.
  induction l as [|a l IH]; simpl; [reflexivity|].
  destruct (sel a); simpl; rewrite IH; ring.
Qed.

Lemma map_nth_seq_from (ps : list Q) (k : nat) (pre : list Q) :
  length pre = k ->
  map (fun i => nth i (pre ++ ps) 0) (seq k (length ps)) = ps.
Proof.
  revert k pre. induction ps as [|x ps IH]; intros k pre Hk; simpl; [reflexivity|].
  f_equal.
  - rewrite app_nth2; [|lia]. rewrite Hk, Nat.sub_diag. reflexivity.
  - specialize (IH (S k) (pre ++ [x])). rewrite <- app_assoc in IH. simpl in IH.
    apply IH. rewrite length_app. simpl. lia.
Qed.

Lemma map_nth_seq (ps : list Q) :
  map (fun i => nth i ps 0) (seq 0 (length ps)) = ps.
Proof. exact (map_nth_seq_from ps 0%nat [] eq_refl). Qed.

(** ** Band aggregator *)

Definition band_lo (b : string * (Q * Q)) : Q := fst (snd b).
Definition band_hi (b : string * (Q * Q)) : Q := snd (snd b).

(** The indices a band selects, and the sum of the powers there. *)
Definition band_selection (fs : list Q) (b : string * (Q * Q)) : list nat :=
  band_indices fs (band_lo b) (band_hi b).

Definition band_power (fs ps : list Q) (b : string * (Q * Q)) : Q :=
  np_sum (map (fun i => nth i ps 0) (band_selection fs b)).

Definition band_selected (fs : list Q) (b : string * (Q * Q)) : bool :=
  negb (length (band_selection fs b) =? 0)%nat.

(** No frequency sample lies in both bands. *)
Definition disjoint_on (fs : list Q) (b1 b2 : string * (Q * Q)) : Prop :=
  forall f, In f fs ->
    in_band (band_lo b1) (band_hi b1) f = true ->
    in_band (band_lo b2) (band_hi b2) f = true -> False.

Lemma np_take_ok (a : list Q) (idx : list nat) :
  (forall i, In i idx -> (i < length a)%nat) ->
  np_take a idx = Ok (map (fun i => nth i a 0) idx).
Proof.
  induction idx as [|i idx IH]; simpl; intros Hlt; [reflexivity|].
  unfold np_index. rewrite (nth_error_nth' a 0) by auto. simpl.
  rewrite IH by auto. reflexivity.
Qed.

Lemma band_indices_lt (fs : list Q) (lo hi : Q) (i : nat) :
  In i (band_indices fs lo hi) -> (i < length fs)%nat.
Proof.
  unfold band_indices. intros Hin. apply filter_In in Hin.
  destruct Hin as [Hin _]. apply in_seq in Hin. lia.
Qed.

Lemma argmax_from_Q_bound (l : list Q) (best : Q) (besti i : nat) :
  (besti < i)%nat -> (argmax_from_Q best besti i l < i + length l)%nat.
Proof.
  revert best besti i. induction l as [|x xs IH]; simpl; intros best besti i Hlt; [lia|].
  destruct (Qltb best x).
  - specialize (IH x i (S i)). lia.
  - specialize (IH best besti (S i)). lia.
Qed.

Lemma np_argmax_Q_bound (l : list Q) : l <> [] -> (np_argmax_Q l < length l)%nat.
Proof.
  destruct l as [|x xs]; [congruence|]. intros _. simpl.
  pose proof (argmax_from_Q_bound xs x 0 1). lia.
Qed.

Section BandAggregator.
Variables (fs ps : list Q) (df total_pwr : Q).
Hypothesis same_length : length fs = length ps.

Definition band_rpwr (b : string * (Q * Q)) : Q :=
  band_power fs ps b * df / total_pwr.

Lemma fband_step_ok (acc : ReturnTuple) (b : string * (Q * Q)) :
  exists rows,
    fband_step fs ps df total_pwr (Ok acc) b = Ok (acc ++ rows)
    /\ relative_powers rows
       = (if band_selected fs b then [band_rpwr b] else [])
    /\ forall more, relative_powers (rows ++ more)
                    = relative_powers rows ++ relative_powers more.
Proof.
  unfold fband_step, band_selected, band_rpwr, band_power, band_selection. simpl.
  fold (band_lo b). fold (band_hi b).
  set (band := band_indices fs (band_lo b) (band_hi b)).
  destruct (length band =? 0)%nat eqn:E; simpl.
  - exists []. rewrite app_nil_r. auto.
  - apply Nat.eqb_neq in E.
    rewrite np_take_ok; [|intros i Hi; rewrite <- same_length; eapply band_indices_lt; exact Hi].
    simpl. rewrite np_take_ok; [|intros i Hi; eapply band_indices_lt; exact Hi].
    simpl. unfold np_index.
    set (selected := map (fun i => nth i ps 0) band).
    rewrite (nth_error_nth' _ 0).
    + simpl. eexists. split; [unfold rt_append; reflexivity|]. simpl. auto.
    + assert (Hs : selected <> []).
      { unfold selected. destruct band; [simpl in E; congruence|discriminate]. }
      pose proof (np_argmax_Q_bound selected Hs) as Hb.
      unfold selected in *. rewrite length_map in *. exact Hb.
Qed.

Lemma fold_fband_step (fbands : band_table) (acc : ReturnTuple) :
  exists rows,
    fold_left (fband_step fs ps df total_pwr) fbands (Ok acc) = Ok (acc ++ rows)
    /\ relative_powers rows = map band_rpwr (filter (band_selected fs) fbands).
Proof.
  revert acc. induction fbands as [|b bs IH]; intros acc; cbn [fold_left filter map].
  - exists []. rewrite app_nil_r. auto.
  - destruct (fband_step_ok acc b) as [rows [-> [Hrows Happ]]].
    destruct (IH (acc ++ rows)) as [more [Hfold Hmore]].
    exists (rows ++ more). split; [rewrite app_assoc; exact Hfold|].
    rewrite Happ, Hrows, Hmore.
    destruct (band_selected fs b); reflexivity.
Qed.

End BandAggregator.

Section BandSums.
Variables (fs ps : list Q).

Let p (i : nat) : Q := nth i ps 0.
Let selects (b : string * (Q * Q)) (i : nat) : bool :=
  in_band (band_lo b) (band_hi b) (nth i fs 0).

(** Some band of the table selects the sample of index [i]. *)
Definition covered (bs : band_table) (i : nat) : bool :=
  existsb (fun b => in_band (band_lo b) (band_hi b) (nth i fs 0)) bs.

Lemma band_power_masked (b : string * (Q * Q)) :
  band_power fs ps b
  == np_sum (map (fun i => if selects b i then p i else 0) (seq 0 (length fs))).
Proof.
  unfold band_power, band_selection, band_indices.
  apply (np_sum_filter p (selects b)).
Qed.

Lemma sum_band_power (bs : band_table) :
  ForallOrdPairs (disjoint_on fs) bs ->
  np_sum (map (band_power fs ps) bs)
  == np_sum (map (fun i => if covered bs i then p i else 0) (seq 0 (length fs))).
Proof.
  induction 1 as [|b bs Hb Hbs IH]; simpl.
  - induction (seq 0 (length fs)) as [|i l IHl]; simpl; [reflexivity|].
    rewrite <- IHl. ring.
  - rewrite IH, band_power_masked, np_sum_map_plus.
    apply np_sum_map_ext. intros i Hi. apply in_seq in Hi.
    unfold selects.
    destruct (in_band (band_lo b) (band_hi b) (nth i fs 0)) eqn:Eb; simpl.
    + destruct (covered bs i) eqn:Ec; [|ring].
      exfalso. apply existsb_exists in Ec. destruct Ec as [b' [Hin' Eb']].
      rewrite Forall_forall in Hb.
      apply (Hb b' Hin' (nth i fs 0)); auto. apply nth_In. lia.
    + ring.
Qed.

Lemma band_power_unselected (b : string * (Q * Q)) :
  band_selected fs b = false -> band_power fs ps b == 0.
Proof.
  unfold band_selected, band_power. intros E.
  apply negb_false_iff, Nat.eqb_eq in E.
  destruct (band_selection fs b); [reflexivity|discriminate].
Qed.

Lemma sum_selected_rpwr (df total_pwr : Q) (bs : band_table) :
  np_sum (map (band_rpwr fs ps df total_pwr) (filter (band_selected fs) bs))
  == np_sum (map (band_power fs ps) bs) * (df / total_pwr).
Proof.
  induction bs as [|b bs IH]; simpl; [ring|].
  destruct (band_selected fs b) eqn:E; simpl; rewrite IH.
  - unfold band_rpwr, Qdiv. ring.
  - rewrite (band_power_unselected b E). ring.
Qed.

Lemma sum_all_powers :
  np_sum (map p (seq 0 (length ps))) == np_sum ps.
Proof. unfold p. rewrite map_nth_seq. reflexivity. Qed.

End BandSums.

Lemma nth_nonneg (ps : list Q) (i : nat) :
  Forall (fun x => 0 <= x) ps -> 0 <= nth i ps 0.
Proof.
  intros Hps. destruct (Nat.lt_ge_cases i (length ps)) as [Hlt|Hge].
  - rewrite Forall_forall in Hps. apply Hps. now apply nth_In.
  - rewrite nth_overflow by exact Hge. apply Qle_refl.
Qed.

(** C4 (as amended).  On a frequency axis and a power axis of the same
    length, with a positive resolution, powers that are not negative and
    whose sum is positive, and a band table in which no frequency sample
    lies in two bands, the aggregator returns, the relative powers it emits
    sum to at most 1, and when every power is positive the sum is 1 only if
    every frequency sample lies in some band. *)
Theorem compute_fbands_relative_powers_bounded
    (frequencies powers : list Q) (fbands : band_table) :
  length frequencies = length powers ->
  (2 <= length frequencies)%nat ->
  nth 0 frequencies 0 < nth 1 frequencies 0 ->
  Forall (fun x => 0 <= x) powers ->
  0 < np_sum powers ->
  ForallOrdPairs (disjoint_on frequencies) fbands ->
  exists out,
    compute_fbands frequencies powers (Some fbands) = Ok out
    /\ np_sum (relative_powers out) <= 1
    /\ (Forall (fun x => 0 < x) powers ->
        np_sum (relative_powers out) == 1 ->
        forall f, In f frequencies ->
          exists b, In b fbands /\ in_band (band_lo b) (band_hi b) f = true).
Proof.
  intros Hlen Htwo Hdf Hpos Htot Hdisj.
  unfold compute_fbands.
  destruct frequencies as [|f0 [|f1 rest]]; try (simpl in Htwo; lia).
  cbn [np_index nth_error bind]. simpl in Hdf.
  set (frequencies := f0 :: f1 :: rest) in *.
  set (df := f1 - f0). set (total := np_sum powers * df).
  assert (Hdfpos : 0 < df) by (unfold df; lra).
  destruct (fold_fband_step frequencies powers df total Hlen fbands [])
    as [rows [Hfold Hrp]].
  exists rows. split; [exact Hfold|].
  rewrite Hrp, sum_selected_rpwr, (sum_band_power _ _ _ Hdisj).
  set (masked := np_sum (map (fun i => if covered frequencies fbands i
                                       then nth i powers 0 else 0)
                             (seq 0 (length frequencies)))).
  assert (Hratio : masked * (df / total) == masked / np_sum powers).
  { unfold total. field. split; lra. }
  assert (Hall : np_sum (map (fun i => nth i powers 0) (seq 0 (length frequencies)))
                 == np_sum powers).
  { rewrite Hlen. apply sum_all_powers. }
  rewrite Hratio. split.
  - apply Qle_shift_div_r; [exact Htot|]. rewrite Qmult_1_l, <- Hall.
    apply np_sum_map_le. intros i _.
    destruct (covered frequencies fbands i); [apply Qle_refl|].
    now apply nth_nonneg.
  - intros Hstrict Hone f Hf.
    destruct (In_nth _ _ 0 Hf) as [i [Hi Hnth]].
    destruct (covered frequencies fbands i) eqn:Ec.
    + apply existsb_exists in Ec. destruct Ec as [b [Hb Hsel]].
      exists b. rewrite <- Hnth. auto.
    + exfalso.
      assert (Hlt : masked < np_sum powers).
      { rewrite <- Hall. unfold masked.
        apply np_sum_map_lt with (a := i).
        - intros j _. destruct (covered frequencies fbands j); [apply Qle_refl|].
          now apply nth_nonneg.
        - apply in_seq. lia.
        - rewrite Ec. rewrite Forall_forall in Hstrict. apply Hstrict.
          apply nth_In. lia. }
      assert (Hlt1 : masked / np_sum powers < 1).
      { apply Qlt_shift_div_r; [exact Htot|]. now rewrite Qmult_1_l. }
      rewrite Hone in Hlt1. discriminate.
Qed.

(** C4, witness: three samples, two bands that share none of them. *)
Lemma compute_fbands_relative_powers_bounded_witness :
  exists out,
    compute_fbands [0; 0.1; 0.2] [1; 2; 3]
      (Some [("a", (0, 0.1)); ("b", (0.15, 0.3))]%string) = Ok out
    /\ np_sum (relative_powers out) <= 1
    /\ (Forall (fun x => 0 < x) [1; 2; 3] ->
        np_sum (relative_powers out) == 1 ->
        forall f, In f [0; 0.1; 0.2] ->
          exists b, In b [("a", (0, 0.1)); ("b", (0.15, 0.3))]%string
                    /\ in_band (band_lo b) (band_hi b) f = true).
Proof.
  apply (compute_fbands_relative_powers_bounded [0; 0.1; 0.2] [1; 2; 3]).
  - reflexivity.
  - simpl; lia.
  - reflexivity.
  - repeat constructor; discriminate.
  - reflexivity.
  - repeat constructor.
    intros f [<- | [<- | [<- | []]]]; vm_compute; discriminate.
Defined.

(** C4, counterexample.  With the default band table, whose bands are closed
    at both ends, the sample at 0.04 Hz lies in both the vlf and the lf band:
    on the axis (0, 0.04) with powers (0, 1) the relative powers are 0, 1 and
    1, so their sum is 2. *)
Lemma compute_fbands_relative_powers_exceed_one :
  exists out,
    compute_fbands [0; 0.04] [0; 1] None = Ok out
    /\ np_sum (relative_powers out) == 2
    /\ ~ np_sum (relative_powers out) <= 1.
Proof.
  eexists. split; [vm_compute; reflexivity|]. split; [vm_compute; reflexivity|].
  intros Hle. vm_compute in Hle. apply Hle. reflexivity.
Qed.

(** ** Duration gates of the frequency-domain and non-linear extractors *)

Lemma np_take_raise (a : list Q) (idx : list nat) (e : exn) :
  np_take a idx = Raise e -> e = IndexError.
Proof.
  induction idx as [|i idx IH]; simpl; [discriminate|].
  unfold np_index. destruct (nth_error a i); simpl; [|congruence].
  destruct (np_take a idx); simpl; [discriminate|].
  intros [= <-]. now apply IH.
Qed.

Lemma fband_step_raise fs ps df total_pwr (out : result ReturnTuple) b e :
  fband_step fs ps df total_pwr out b = Raise e ->
  out = Raise e \/ e = IndexError.
Proof.
  unfold fband_step. destruct out as [acc|e']; simpl; [|intros [= ->]; auto].
  destruct (length _ =? 0)%nat; [discriminate|].
  destruct (np_take ps _) as [sel|e1] eqn:E1; simpl;
    [|intros [= <-]; right; eapply np_take_raise; eauto].
  destruct (np_take fs _) as [at_band|e2] eqn:E2; simpl;
    [|intros [= <-]; right; eapply np_take_raise; eauto].
  unfold np_index. destruct (nth_error at_band _); simpl; [discriminate|].
  intros [= <-]. auto.
Qed.

Lemma fold_fband_step_raise fs ps df total_pwr bs (init : result ReturnTuple) e :
  fold_left (fband_step fs ps df total_pwr) bs init = Raise e ->
  init = Raise e \/ e = IndexError.
Proof.
  revert init. induction bs as [|b bs IH]; simpl; intros init Hr; [auto|].
  apply IH in Hr. destruct Hr as [Hr|Hr]; [|auto].
  eapply fband_step_raise; eauto.
Qed.

Lemma compute_fbands_raise (fs ps : list Q) (fbands : option band_table) (e : exn) :
  compute_fbands fs ps fbands = Raise e -> e = IndexError.
Proof.
  unfold compute_fbands, np_index.
  destruct (nth_error fs 1); cbn [bind]; [|intros [= <-]; reflexivity].
  destruct (nth_error fs 0); cbn [bind]; [|intros [= <-]; reflexivity].
  intros Hr. apply fold_fband_step_raise in Hr.
  destruct Hr as [Hr|Hr]; [discriminate|exact Hr].
Qed.

Lemma bind_raise {A B : Type} (r : result A) (k : A -> result B) (e : exn) :
  bind r k = Raise e -> r = Raise e \/ exists a, r = Ok a /\ k a = Raise e.
Proof.
  destruct r as [a|e']; simpl; [right; eauto|left; congruence].
Qed.

Lemma bind_ok {A B : Type} (r : result A) (k : A -> result B) (b : B) :
  bind r k = Ok b -> exists a, r = Ok a /\ k a = Ok b.
Proof.
  destruct r as [a|e]; simpl; [eauto|discriminate].
Qed.

Lemma np_index_raise (a : list Q) (i : nat) (e : exn) :
  np_index a i = Raise e -> e = IndexError.
Proof. unfold np_index. destruct (nth_error a i); congruence. Qed.

Lemma rt_get_raise (out : ReturnTuple) (key : string) (e : exn) :
  rt_get out key = Raise e -> e = KeyError key.
Proof.
  induction out as [|[k v] out IH]; simpl; [congruence|].
  destruct (String.eqb k key); [discriminate|exact IH].
Qed.

Lemma as_float_raise (v : value) (e : exn) :
  as_float v = Raise e -> exists msg, e = TypeError msg.
Proof. destruct v; simpl; intros [= <-]; eauto. Qed.

Section FamilyGates.
Context `{Collaborators}.

Lemma hrv_frequencydomain_gate (rri : list Q) (duration : option extended)
    (fbands : option band_table) (detrend_rri : bool) (frs : option Q) :
  hrv_frequencydomain (Some rri) duration "FFT" fbands detrend_rri frs
    = Raise (ValueError fd_duration_msg)
  <-> ext_ltb (signal_duration rri duration) 20 = true.
Proof.
  unfold hrv_frequencydomain. cbn [existsb String.eqb Ascii.eqb Bool.eqb orb negb].
  set (d := signal_duration rri duration).
  destruct (ext_ltb d 20) eqn:E20; [split; reflexivity|].
  split; [|discriminate]. intros Heq. exfalso.
  apply bind_raise in Heq. destruct Heq as [Heq | [t0 [_ Heq]]].
  { apply np_index_raise in Heq. discriminate. }
  apply bind_raise in Heq. destruct Heq as [Heq | [rri_inter [_ Heq]]].
  { destruct (interp1d_cubic _ _ _); discriminate. }
  destruct (ext_geb d 20); [|discriminate].
  apply bind_raise in Heq. destruct Heq as [Heq | [fb_out [_ Heq]]].
  { apply compute_fbands_raise in Heq. discriminate. }
  apply bind_raise in Heq. destruct Heq as [Heq | [lf [_ Heq]]].
  { apply bind_raise in Heq. destruct Heq as [Heq | [v [_ Heq]]].
    - apply rt_get_raise in Heq. discriminate.
    - apply as_float_raise in Heq. destruct Heq as [msg Heq]. discriminate. }
  apply bind_raise in Heq. destruct Heq as [Heq | [hf [_ Heq]]].
  { apply bind_raise in Heq. destruct Heq as [Heq | [v [_ Heq]]].
    - apply rt_get_raise in Heq. discriminate.
    - apply as_float_raise in Heq. destruct Heq as [msg Heq]. discriminate. }
  discriminate.
Qed.

Lemma hrv_nonlinear_gate (rri : list Q) (duration : option extended)
    (detrend_rri : bool) :
  hrv_nonlinear (Some rri) duration detrend_rri = Raise (ValueError nl_duration_msg)
  <-> ext_ltb (signal_duration rri duration) 90 = true.
Proof.
  unfold hrv_nonlinear.
  destruct (ext_ltb (signal_duration rri duration) 90); split;
    try reflexivity; discriminate.
Qed.

Lemma hrv_timedomain_gate (rri : list Q) (duration : option extended)
    (detrend_rri : bool) (rri_detrended : option (list Q)) :
  hrv_timedomain (Some rri) duration detrend_rri rri_detrended
    = Raise (ValueError td_duration_msg)
  <-> ext_ltb (signal_duration rri duration) 10 = true.
Proof. apply hrv_timedomain_gates. Qed.

End FamilyGates.

(** ** Pipeline orchestrator *)

(** The orchestrator as the spec words it, to be compared with [hrv]: the
    output is the interval array followed by the rows of every selected
    family that returned; a selected family that raised a ValueError leaves
    its notice and no rows; any other exception of a family ends the run.
    A family that was not selected is [None]. *)
Definition family_rows (r : option (result ReturnTuple)) : ReturnTuple :=
  match r with
  | Some (Ok features) => features
  | _ => []
  end.

Definition family_notice (r : option (result ReturnTuple)) (notice : string)
  : list string :=
  match r with
  | Some (Raise (ValueError _)) => [notice]
  | _ => []
  end.

Definition family_fatal (r : option (result ReturnTuple)) : option exn :=
  match r with
  | Some (Raise (ValueError _)) => None
  | Some (Raise e) => Some e
  | _ => None
  end.

Definition hrv_summary (series : list Q) (warnings : list string)
    (td fd nl : option (result ReturnTuple)) : result (ReturnTuple * list string) :=
  match family_fatal td, family_fatal fd, family_fatal nl with
  | Some e, _, _ => Raise e
  | None, Some e, _ => Raise e
  | None, None, Some e => Raise e
  | None, None, None =>
      Ok (("rri"%string, VArray series)
            :: family_rows td ++ family_rows fd ++ family_rows nl,
          warnings ++ family_notice td td_notice ++ family_notice fd fd_notice
            ++ family_notice nl nl_notice)
  end.

(** The warnings of the interval builder, when [hrv] has to call it. *)
Definition input_warnings (rpeaks : option (list Q)) (sampling_rate : Q)
    (rri : option (list Q)) : list string :=
  match rri, rpeaks with
  | None, Some beats =>
      match compute_rri beats sampling_rate with
      | Ok (_, w) => w
      | Raise _ => []
      end
  | _, _ => []
  end.

(** A family either returned or raised a ValueError other than its
    insufficient-duration error. *)
Definition returned_or_other_error (r : result ReturnTuple) (duration_msg : string)
  : Prop :=
  (exists features, r = Ok features)
  \/ (exists msg, r = Raise (ValueError msg) /\ msg <> duration_msg).

Lemma try_family_summary (st : ReturnTuple * list string) (r : result ReturnTuple)
    (notice : string) :
  try_family st r notice
  = match family_fatal (Some r) with
    | Some e => Raise e
    | None => Ok (fst st ++ family_rows (Some r), snd st ++ family_notice (Some r) notice)
    end.
Proof.
  destruct r as [features|[msg|msg| | |key]]; simpl; rewrite ?app_nil_r; reflexivity.
Qed.

Lemma summary_not_fatal (r : result ReturnTuple) (duration_msg : string) :
  family_fatal (Some r) = None -> r <> Raise (ValueError duration_msg) ->
  returned_or_other_error r duration_msg.
Proof.
  destruct r as [features|[msg|msg| | |key]]; simpl; try discriminate.
  - intros _ _. left. eauto.
  - intros _ Hne. right. exists msg. split; [reflexivity|]. congruence.
Qed.

Section Orchestrator.
Context `{Collaborators}.

Lemma hrv_features_summary (parameters : string) (detrend_rri : bool) (p : prepared) :
  hrv_features parameters detrend_rri p
  = hrv_summary (p_rri p) (p_warnings p)
      (if member parameters ["time"; "auto"; "all"]%string
       then Some (hrv_timedomain (Some (p_rri p)) (Some (p_duration p)) detrend_rri
                                 (p_rri_det p))
       else None)
      (if member parameters ["frequency"; "auto"; "all"]%string
       then Some (hrv_frequencydomain (Some (p_rri p)) (Some (p_duration p)) "FFT" None
                                      detrend_rri None)
       else None)
      (if member parameters ["non-linear"; "auto"; "all"]%string
       then Some (hrv_nonlinear (Some (p_rri p)) (Some (p_duration p)) detrend_rri)
       else None).
Proof.
  unfold hrv_features, hrv_summary.
  set (td := hrv_timedomain _ _ _ _).
  set (fd := hrv_frequencydomain _ _ _ _ _ _).
  set (nl := hrv_nonlinear _ _ _).
  destruct (member parameters ["time"; "auto"; "all"]%string),
           (member parameters ["frequency"; "auto"; "all"]%string),
           (member parameters ["non-linear"; "auto"; "all"]%string);
    try destruct td as [f1|[m1|m1| | |k1]];
    try destruct fd as [f2|[m2|m2| | |k2]];
    try destruct nl as [f3|[m3|m3| | |k3]];
    cbn [try_family bind family_fatal family_rows family_notice rt_append rt_join
         combine app fst snd];
    rewrite ?app_nil_r, <- ?app_assoc; reflexivity.
Qed.

Lemma hrv_prepare_input rpeaks sampling_rate rri rri0 parameters
    (filter_rri detrend_rri : bool) :
  input_intervals rpeaks sampling_rate rri rri0 ->
  member parameters parameters_list = true ->
  let series := if filter_rri then rri_filter rri0 default_threshold else rri0 in
  hrv_prepare rpeaks sampling_rate rri parameters filter_rri detrend_rri
  = Ok {| p_rri := series;
          p_duration := if String.eqb parameters "all" then PosInf
                        else Finite (np_sum rri0 / 1000);
          p_rri_det := if detrend_rri
                       then Some (detrend_window series default_win_len) else None;
          p_warnings := input_warnings rpeaks sampling_rate rri |}.
Proof.
  intros [->|[-> [beats [w [-> Hc]]]]] Hm series; subst series;
    unfold hrv_prepare, input_warnings; rewrite Hm; cbn [negb].
  - destruct rpeaks; reflexivity.
  - rewrite Hc. reflexivity.
Qed.

Lemma hrv_prepare_inv rpeaks sampling_rate rri parameters filter_rri detrend_rri p :
  hrv_prepare rpeaks sampling_rate rri parameters filter_rri detrend_rri = Ok p ->
  exists rri0,
    input_intervals rpeaks sampling_rate rri rri0
    /\ p_rri p = (if filter_rri then rri_filter rri0 default_threshold else rri0)
    /\ p_duration p = (if String.eqb parameters "all" then PosInf
                       else Finite (np_sum rri0 / 1000)).
Proof.
  unfold hrv_prepare, input_intervals.
  destruct rri as [rri0|]; [|destruct rpeaks as [beats|]; [|discriminate]].
  - assert (forall r : result prepared,
              match rpeaks with None => r | Some _ => r end = r) as Hm
      by (destruct rpeaks; reflexivity).
    rewrite Hm. clear Hm.
    destruct (negb (member parameters parameters_list)); [discriminate|].
    simpl. intros [= <-]. exists rri0. simpl. auto.
  - destruct (negb (member parameters parameters_list)); [discriminate|].
    destruct (compute_rri beats sampling_rate) as [[rri0 w]|e] eqn:E; simpl;
      [|discriminate].
    intros [= <-]. exists rri0. simpl. split; [|auto].
    right. split; [reflexivity|]. eauto.
Qed.

Lemma hrv_prepare_given rpeaks sampling_rate rri0 parameters filter_rri detrend_rri :
  member parameters parameters_list = true ->
  exists p,
    hrv_prepare rpeaks sampling_rate (Some rri0) parameters filter_rri detrend_rri = Ok p.
Proof.
  intros Hmem. unfold hrv_prepare. rewrite Hmem. simpl.
  destruct rpeaks; eexists; reflexivity.
Qed.

(** C9 (as amended).  With filtering on, [hrv] is the orchestration of the
    three families called on the filtered sequence with a duration that is
    the sum of the intervals before filtering, or unbounded under the
    selector 'all'.  So for every other selector each family raises its
    insufficient-duration error exactly when that unfiltered sum is below its
    minimum, whatever the filter removed. *)
Theorem hrv_gating_duration_precedes_filter
    rpeaks sampling_rate rri rri0 parameters (detrend_rri : bool) :
  input_intervals rpeaks sampling_rate rri rri0 ->
  member parameters parameters_list = true ->
  let series := rri_filter rri0 default_threshold in
  let det := if detrend_rri
             then Some (detrend_window series default_win_len) else None in
  let d := if String.eqb parameters "all" then PosInf
           else Finite (np_sum rri0 / 1000) in
  let td := hrv_timedomain (Some series) (Some d) detrend_rri det in
  let fd := hrv_frequencydomain (Some series) (Some d) "FFT" None detrend_rri None in
  let nl := hrv_nonlinear (Some series) (Some d) detrend_rri in
  hrv rpeaks sampling_rate rri parameters true detrend_rri
  = hrv_summary series (input_warnings rpeaks sampling_rate rri)
      (if member parameters ["time"; "auto"; "all"]%string then Some td else None)
      (if member parameters ["frequency"; "auto"; "all"]%string then Some fd else None)
      (if member parameters ["non-linear"; "auto"; "all"]%string then Some nl else None)
  /\ (parameters <> "all"%string ->
      (td = Raise (ValueError td_duration_msg) <-> np_sum rri0 / 1000 < 10)
      /\ (fd = Raise (ValueError fd_duration_msg) <-> np_sum rri0 / 1000 < 20)
      /\ (nl = Raise (ValueError nl_duration_msg) <-> np_sum rri0 / 1000 < 90)).
Proof.
  intros Hin Hm series det d td fd nl. split.
  - unfold hrv.
    rewrite (hrv_prepare_input _ _ _ _ _ true detrend_rri Hin Hm).
    cbn [bind]. rewrite hrv_features_summary. reflexivity.
  - intros Hnot. apply String.eqb_neq in Hnot.
    subst td fd nl d. rewrite Hnot. repeat split.
    all: try (intros Hr; apply hrv_timedomain_gate in Hr; simpl in Hr;
              now apply Qltb_lt).
    all: try (intros Hr; apply hrv_timedomain_gate; simpl; now apply Qltb_lt).
    all: try (intros Hr; apply hrv_frequencydomain_gate in Hr; simpl in Hr;
              now apply Qltb_lt).
    all: try (intros Hr; apply hrv_frequencydomain_gate; simpl; now apply Qltb_lt).
    all: try (intros Hr; apply hrv_nonlinear_gate in Hr; simpl in Hr;
              now apply Qltb_lt).
    all: try (intros Hr; apply hrv_nonlinear_gate; simpl; now apply Qltb_lt).
Qed.

(** C1 (as amended).  Under the selector 'all' [hrv] is the orchestration of
    the three families called with an unbounded duration, whatever the
    intervals sum to: none of them raises its insufficient-duration error,
    and whenever [hrv] returns, each family either returned, and its rows are
    in the output, or raised another ValueError, and its notice is in the
    messages. *)
Theorem hrv_all_disables_duration_errors
    rpeaks sampling_rate rri rri0 (filter_rri detrend_rri : bool) :
  input_intervals rpeaks sampling_rate rri rri0 ->
  let series := if filter_rri then rri_filter rri0 default_threshold else rri0 in
  let det := if detrend_rri
             then Some (detrend_window series default_win_len) else None in
  let td := hrv_timedomain (Some series) (Some PosInf) detrend_rri det in
  let fd := hrv_frequencydomain (Some series) (Some PosInf) "FFT" None
              detrend_rri None in
  let nl := hrv_nonlinear (Some series) (Some PosInf) detrend_rri in
  (td <> Raise (ValueError td_duration_msg)
   /\ fd <> Raise (ValueError fd_duration_msg)
   /\ nl <> Raise (ValueError nl_duration_msg))
  /\ hrv rpeaks sampling_rate rri "all" filter_rri detrend_rri
     = hrv_summary series (input_warnings rpeaks sampling_rate rri)
         (Some td) (Some fd) (Some nl)
  /\ (forall st,
        hrv rpeaks sampling_rate rri "all" filter_rri detrend_rri = Ok st ->
        returned_or_other_error td td_duration_msg
        /\ returned_or_other_error fd fd_duration_msg
        /\ returned_or_other_error nl nl_duration_msg).
Proof.
  intros Hin series det td fd nl.
  assert (Hgates : td <> Raise (ValueError td_duration_msg)
                   /\ fd <> Raise (ValueError fd_duration_msg)
                   /\ nl <> Raise (ValueError nl_duration_msg)).
  { subst td fd nl. repeat split.
    - rewrite hrv_timedomain_gate. discriminate.
    - rewrite hrv_frequencydomain_gate. discriminate.
    - rewrite hrv_nonlinear_gate. discriminate. }
  assert (Heq : hrv rpeaks sampling_rate rri "all" filter_rri detrend_rri
                = hrv_summary series (input_warnings rpeaks sampling_rate rri)
                    (Some td) (Some fd) (Some nl)).
  { unfold hrv.
    rewrite (hrv_prepare_input _ _ _ _ "all" filter_rri detrend_rri Hin eq_refl).
    cbn [bind]. rewrite hrv_features_summary. reflexivity. }
  split; [exact Hgates|]. split; [exact Heq|].
  intros st Hst. rewrite Heq in Hst. unfold hrv_summary in Hst.
  destruct Hgates as [Gtd [Gfd Gnl]].
  destruct (family_fatal (Some td)) eqn:Ftd; [discriminate|].
  destruct (family_fatal (Some fd)) eqn:Ffd; [discriminate|].
  destruct (family_fatal (Some nl)) eqn:Fnl; [discriminate|].
  repeat split; apply summary_not_fatal; assumption.
Qed.

End Orchestrator.

Lemma try_family_ok st family notice st' :
  try_family st family notice = Ok st' ->
  incl (rt_names (fst st)) (rt_names (fst st'))
  /\ forall m, In m (snd st') -> In m (snd st) \/ m = notice.
Proof.
  unfold try_family. destruct family as [features|[msg| | | |]]; try discriminate.
  - intros [= <-]. simpl. split; [|auto].
    unfold rt_names, rt_join. rewrite map_app. apply incl_appl, incl_refl.
  - intros [= <-]. simpl. split; [apply incl_refl|].
    intros m Hm. apply in_app_or in Hm. destruct Hm as [Hm|[<-|[]]]; auto.
Qed.

(** Nine intervals of 1300 ms, which the filter removes, and five of
    1000 ms: 16.7 s before filtering, 5 s after. *)
Definition mixed_intervals : list Q := repeat 1300 9 ++ repeat 1000 5.

(** Five intervals that sum to 2.575 s. *)
Definition short_intervals : list Q := [500; 520; 510; 530; 515].

(** C9, witness on [mixed_intervals] with the selector 'time'. *)
Lemma hrv_gating_duration_precedes_filter_witness :
  (input_intervals None 1000 (Some mixed_intervals) mixed_intervals
   /\ member "time" parameters_list = true)
  /\ forall C : Collaborators,
     let series := rri_filter mixed_intervals default_threshold in
     let d := Finite (np_sum mixed_intervals / 1000) in
     let td := @hrv_timedomain C (Some series) (Some d) false None in
     let fd := @hrv_frequencydomain C (Some series) (Some d) "FFT" None false None in
     let nl := @hrv_nonlinear C (Some series) (Some d) false in
     @hrv C None 1000 (Some mixed_intervals) "time" true false
     = hrv_summary series [] (Some td) None None
     /\ ("time"%string <> "all"%string ->
         (td = Raise (ValueError td_duration_msg) <-> np_sum mixed_intervals / 1000 < 10)
         /\ (fd = Raise (ValueError fd_duration_msg)
             <-> np_sum mixed_intervals / 1000 < 20)
         /\ (nl = Raise (ValueError nl_duration_msg)
             <-> np_sum mixed_intervals / 1000 < 90)).
Proof.
  split; [split; [left; reflexivity|reflexivity]|]. intros C.
  apply (@hrv_gating_duration_precedes_filter C None 1000 (Some mixed_intervals)
           mixed_intervals "time"%string false); [left; reflexivity|reflexivity].
Defined.

(** The time-domain features of [mixed_intervals] are computed by [hrv]
    although the filtered sequence lasts only 5 s, on which the extractor
    called directly raises its insufficient-duration error. *)
Example hrv_time_on_mixed_intervals `{Collaborators} :
  (exists out,
     hrv None 1000 (Some mixed_intervals) "time" true false = Ok (out, [])
     /\ rt_names out = ["rri"; "hr"; "hr_min"; "hr_max"; "hr_minmax"; "hr_avg";
                        "rr_mean"; "rmssd"]%string)
  /\ hrv_timedomain (Some (rri_filter mixed_intervals default_threshold)) None false None
     = Raise (ValueError td_duration_msg).
Proof.
  split; [eexists; split; reflexivity|reflexivity].
Qed.

(** C1, witness on [short_intervals]. *)
Lemma hrv_all_disables_duration_errors_witness :
  (np_sum short_intervals / 1000 < 10
   /\ input_intervals None 1000 (Some short_intervals) short_intervals)
  /\ forall C : Collaborators,
     let series := rri_filter short_intervals default_threshold in
     let td := @hrv_timedomain C (Some series) (Some PosInf) false None in
     let fd := @hrv_frequencydomain C (Some series) (Some PosInf) "FFT" None
                 false None in
     let nl := @hrv_nonlinear C (Some series) (Some PosInf) false in
     (td <> Raise (ValueError td_duration_msg)
      /\ fd <> Raise (ValueError fd_duration_msg)
      /\ nl <> Raise (ValueError nl_duration_msg))
     /\ @hrv C None 1000 (Some short_intervals) "all" true false
        = hrv_summary series [] (Some td) (Some fd) (Some nl)
     /\ (forall st,
           @hrv C None 1000 (Some short_intervals) "all" true false = Ok st ->
           returned_or_other_error td td_duration_msg
           /\ returned_or_other_error fd fd_duration_msg
           /\ returned_or_other_error nl nl_duration_msg).
Proof.
  split; [split; [reflexivity|left; reflexivity]|]. intros C.
  apply (@hrv_all_disables_duration_errors C None 1000 (Some short_intervals)
           short_intervals true false).
  left. reflexivity.
Defined.

(** What [hrv] has prepared on [short_intervals] under 'all': the filter
    keeps the five intervals and the duration is unbounded. *)
Definition short_prepared : prepared :=
  {| p_rri := short_intervals; p_duration := PosInf; p_rri_det := None;
     p_warnings := [] |}.

Lemma hrv_features_all `{Collaborators} (detrend_rri : bool) (p : prepared) :
  hrv_features "all" detrend_rri p
  = (st <- try_family (rt_append [] [VArray (p_rri p)] ["rri"%string], p_warnings p)
             (hrv_timedomain (Some (p_rri p)) (Some (p_duration p)) detrend_rri
                             (p_rri_det p))
             td_notice ;;
     st <- try_family st
             (hrv_frequencydomain (Some (p_rri p)) (Some (p_duration p)) "FFT" None
                                  detrend_rri None)
             fd_notice ;;
     try_family st (hrv_nonlinear (Some (p_rri p)) (Some (p_duration p)) detrend_rri)
                nl_notice).
Proof. reflexivity. Qed.

(** C1, counterexample.  [short_intervals] last 2.575 s, below every
    minimum.  Under the selector 'all' the time-domain extractor, as [hrv]
    calls it, raises nothing and returns all its features, up to hti and
    tinn; and whenever [hrv] returns, the time-domain features are in its
    output and the time-domain notice was not printed. *)
Lemma hrv_all_computes_timedomain_on_short_signal :
  np_sum short_intervals / 1000 < 10
  /\ forall C : Collaborators,
     exists out,
       hrv_prepare None 1000 (Some short_intervals) "all" true false = Ok short_prepared
       /\ hrv_timedomain (Some (p_rri short_prepared)) (Some (p_duration short_prepared))
            false (p_rri_det short_prepared)
          = Ok out
       /\ rt_names out = ["hr"; "hr_min"; "hr_max"; "hr_minmax"; "hr_avg"; "rr_mean";
                          "rmssd"; "nn50"; "pnn50"; "sdnn"; "hti"; "tinn"]%string
       /\ forall st,
            hrv None 1000 (Some short_intervals) "all" true false = Ok st ->
            In "hr"%string (rt_names (fst st)) /\ ~ In td_notice (snd st).
Proof.
  split; [reflexivity|]. intros C.
  assert (Hp : hrv_prepare None 1000 (Some short_intervals) "all" true false
               = Ok short_prepared) by (vm_compute; reflexivity).
  assert (Htd : exists out,
             hrv_timedomain (Some (p_rri short_prepared))
               (Some (p_duration short_prepared)) false (p_rri_det short_prepared)
             = Ok out
             /\ rt_names out = ["hr"; "hr_min"; "hr_max"; "hr_minmax"; "hr_avg";
                                "rr_mean"; "rmssd"; "nn50"; "pnn50"; "sdnn"; "hti";
                                "tinn"]%string).
  { eexists. split; [lazy; reflexivity|reflexivity]. }
  destruct Htd as [out [Htd Hnames]].
  exists out. split; [exact Hp|]. split; [exact Htd|]. split; [exact Hnames|].
  intros st Hst. unfold hrv in Hst. rewrite Hp in Hst. cbn [bind] in Hst.
  rewrite hrv_features_all, Htd in Hst. cbn [try_family bind fst snd] in Hst.
  apply bind_ok in Hst. destruct Hst as [st1 [H1 H2]].
  apply try_family_ok in H1. apply try_family_ok in H2.
  destruct H1 as [I1 N1], H2 as [I2 N2]. split.
  - apply I2, I1. cbn [fst]. unfold rt_names, rt_join. rewrite map_app.
    apply in_or_app. right. fold (rt_names out). rewrite Hnames. simpl. auto.
  - intros Hn. apply N2 in Hn. destruct Hn as [Hn|Hn]; [|discriminate].
    apply N1 in Hn. destruct Hn as [Hn|Hn]; [|discriminate].
    simpl in Hn. exact Hn.
Qed.

(** C9, counterexample.  One interval of 1300 ms, which the filter removes,
    in front of [short_intervals]: 3.875 s before filtering, below every
    minimum.  Gated by that sum the time-domain extractor would raise its
    insufficient-duration error; under the selector 'all' [hrv] hands it an
    unbounded duration instead, so it returns all its features and [hrv]
    puts them in its output, without the time-domain notice. *)
Lemma hrv_all_gating_is_not_the_unfiltered_sum :
  (np_sum (1300 :: short_intervals) / 1000 < 10
   /\ rri_filter (1300 :: short_intervals) default_threshold = short_intervals)
  /\ forall C : Collaborators,
     @hrv_timedomain C (Some short_intervals)
       (Some (Finite (np_sum (1300 :: short_intervals) / 1000))) false None
     = Raise (ValueError td_duration_msg)
     /\ exists out,
          @hrv_timedomain C (Some short_intervals) (Some PosInf) false None = Ok out
          /\ rt_names out = ["hr"; "hr_min"; "hr_max"; "hr_minmax"; "hr_avg"; "rr_mean";
                             "rmssd"; "nn50"; "pnn50"; "sdnn"; "hti"; "tinn"]%string
          /\ @hrv C None 1000 (Some (1300 :: short_intervals)) "all" true false
             = hrv_summary short_intervals [] (Some (Ok out))
                 (Some (@hrv_frequencydomain C (Some short_intervals) (Some PosInf)
                          "FFT" None false None))
                 (Some (@hrv_nonlinear C (Some short_intervals) (Some PosInf) false)).
Proof.
  split; [split; reflexivity|]. intros C. split; [reflexivity|].
  assert (Htd : exists out,
             @hrv_timedomain C (Some short_intervals) (Some PosInf) false None = Ok out
             /\ rt_names out = ["hr"; "hr_min"; "hr_max"; "hr_minmax"; "hr_avg";
                                "rr_mean"; "rmssd"; "nn50"; "pnn50"; "sdnn"; "hti";
                                "tinn"]%string).
  { eexists. split; [lazy; reflexivity|reflexivity]. }
  destruct Htd as [out [Htd Hnames]].
  exists out. split; [exact Htd|]. split; [exact Hnames|].
  assert (Hp : @hrv_prepare C None 1000 (Some (1300 :: short_intervals)) "all" true false
               = Ok short_prepared) by (vm_compute; reflexivity).
  unfold hrv. rewrite Hp. cbn [bind]. rewrite hrv_features_summary.
  cbn [short_prepared p_rri p_duration p_rri_det p_warnings].
  rewrite Htd. reflexivity.
Qed.

(** ** Entropy estimators *)

Section Entropy.
Local Open Scope R_scope.

Lemma Rleb_true (x y : R) : Rleb x y = true <-> x <= y.
Proof.
  unfold Rleb. destruct (Rle_dec x y); split; auto; discriminate.
Qed.

Lemma np_std_nonneg (l : list R) : 0 <= np_std l.
Proof. apply sqrt_pos. Qed.

Lemma Rlist_max_zeros (l : list R) :
  (forall d, In d l -> d = 0) -> Rlist_max l = 0.
Proof.
  destruct l as [|x xs]; simpl; [reflexivity|]. intros Hz.
  assert (Hx : x = 0) by auto. subst x.
  assert (Hxs : forall d, In d xs -> d = 0) by auto. clear Hz.
  induction xs as [|y ys IH]; simpl; [reflexivity|].
  rewrite (Hxs y) by (now left).
  replace (Rmax 0 0) with 0 by (symmetry; apply Rmax_left; lra).
  apply IH. intros d Hd. apply Hxs. now right.
Qed.

Lemma chebyshev_self (x : list R) : chebyshev x x = 0.
Proof.
  unfold chebyshev. apply Rlist_max_zeros. intros d Hd.
  apply in_map_iff in Hd. destruct Hd as [[a b] [<- Hin]]. simpl.
  assert (a = b) as ->.
  { clear -Hin. induction x as [|y ys IH]; simpl in Hin; [contradiction|].
    destruct Hin as [[= <- <-]|Hin]; auto. }
  rewrite Rminus_diag. apply Rabs_R0.
Qed.

Lemma self_match (r : R) (x : list R) : 0 <= r -> Rleb (chebyshev x x) r = true.
Proof. intros Hr. apply Rleb_true. now rewrite chebyshev_self. Qed.

Lemma length_filter_map {A B : Type} (f : B -> bool) (g : A -> B) (l : list A) :
  length (filter f (map g l)) = length (filter (fun a => f (g a)) l).
Proof.
  induction l as [|a l IH]; simpl; [reflexivity|].
  destruct (f (g a)); simpl; now rewrite IH.
Qed.

(** *** Invariance under a global offset *)

Section Shift.
Variable c : R.

Let shift (l : list R) : list R := map (fun x => x + c) l.

Lemma length_shift (l : list R) : length (shift l) = length l.
Proof. apply length_map. Qed.

Lemma Rsum_shift (l : list R) : Rsum (shift l) = Rsum l + INR (length l) * c.
Proof.
  unfold shift. induction l as [|x l IH]; [simpl; ring|].
  change (Rsum (map (fun x => x + c) (x :: l)))
    with ((x + c) + Rsum (map (fun x => x + c) l)).
  change (Rsum (x :: l)) with (x + Rsum l).
  rewrite IH. change (length (x :: l)) with (S (length l)). rewrite S_INR. ring.
Qed.

Lemma Rmean_shift (l : list R) : l <> [] -> Rmean (shift l) = Rmean l + c.
Proof.
  intros Hne. unfold Rmean. rewrite Rsum_shift. unfold shift. rewrite length_map.
  assert (INR (length l) <> 0).
  { apply not_0_INR. destruct l; [congruence|discriminate]. }
  field. assumption.
Qed.

Lemma np_std_shift (l : list R) : np_std (shift l) = np_std l.
Proof.
  destruct l as [|x l]; [reflexivity|].
  unfold np_std. rewrite Rmean_shift by discriminate.
  f_equal. unfold Rmean. unfold shift at 1 2. rewrite !length_map, map_map.
  f_equal. f_equal. apply map_ext. intros a. f_equal. f_equal. ring.
Qed.

Lemma chebyshev_shift (x y : list R) : chebyshev (shift x) (shift y) = chebyshev x y.
Proof.
  unfold chebyshev, shift. f_equal.
  revert y. induction x as [|a x IH]; intros [|b y]; simpl; try reflexivity.
  rewrite IH. f_equal. f_equal. ring.
Qed.

Lemma count_matches_shift (r : R) (xs : list (list R)) (x : list R) :
  count_matches r (map shift xs) (shift x) = count_matches r xs x.
Proof.
  unfold count_matches. rewrite length_filter_map. f_equal.
  apply filter_ext. intros y. now rewrite chebyshev_shift.
Qed.

Lemma templates_shift (rri : list R) (m k : nat) :
  templates (shift rri) m k = map shift (templates rri m k).
Proof.
  unfold templates. rewrite map_map. apply map_ext. intros i.
  unfold template, shift. now rewrite skipn_map, firstn_map.
Qed.

Lemma sampen_b_shift (rri : list R) (m : nat) (r : R) :
  sampen_b (shift rri) m r = sampen_b rri m r.
Proof.
  unfold sampen_b. rewrite length_shift, !templates_shift, map_map. f_equal.
  apply map_ext. intros x. now rewrite count_matches_shift.
Qed.

Lemma sampen_a_shift (rri : list R) (m : nat) (r : R) :
  sampen_a (shift rri) m r = sampen_a rri m r.
Proof.
  unfold sampen_a. rewrite length_shift, !templates_shift, map_map. f_equal.
  apply map_ext. intros x. now rewrite count_matches_shift.
Qed.

Lemma apen_x_shift (rri : list R) (m : nat) :
  apen_x (shift rri) m = map shift (apen_x rri m).
Proof.
  unfold apen_x. rewrite length_shift, map_map.
  apply map_ext_in. intros i Hi. apply in_seq in Hi.
  unfold shift. rewrite map_map. apply map_ext_in. intros j Hj. apply in_seq in Hj.
  rewrite (nth_indep _ 0 (0 + c)) by (rewrite length_map; lia).
  apply (map_nth (fun x => x + c)).
Qed.

Lemma apen_C_shift (rri : list R) (r : R) (m : nat) :
  apen_C (shift rri) r m = apen_C rri r m.
Proof.
  unfold apen_C. rewrite apen_x_shift, map_map, length_shift.
  apply map_ext. intros x.
  now rewrite count_matches_shift.
Qed.

(** C5.  Adding the same constant to every interval changes neither the
    sample entropy nor the approximate entropy (in exact arithmetic): the
    standard deviation, hence the tolerance, and every pairwise Chebyshev
    distance are unchanged. *)
Theorem entropy_shift_invariant (rri : list R) (m : nat) (r : R) :
  sample_entropy (map (fun x => x + c) rri) m r = sample_entropy rri m r
  /\ approximate_entropy (map (fun x => x + c) rri) m r
     = approximate_entropy rri m r.
Proof.
  change (map (fun x => x + c) rri) with (shift rri). split.
  - unfold sample_entropy. now rewrite np_std_shift, sampen_a_shift, sampen_b_shift.
  - unfold approximate_entropy, phi.
    now rewrite np_std_shift, length_shift, !apen_C_shift.
Qed.

End Shift.

(** *** Approximate entropy never divides by zero nor takes the logarithm of
    zero *)

Lemma count_matches_self (r : R) (xs : list (list R)) (x : list R) :
  In x xs -> 0 <= r -> (1 <= count_matches r xs x)%nat.
Proof.
  intros Hin Hr. unfold count_matches.
  assert (Hf : In x (filter (fun y => Rleb (chebyshev x y) r) xs)).
  { apply filter_In. split; [exact Hin|now apply self_match]. }
  destruct (filter _ xs); [contradiction|simpl; lia].
Qed.

Lemma apen_denominator_pos (n k : nat) : (k <= n)%nat -> 0 < INR n - INR k + 1.
Proof. intros Hle. apply le_INR in Hle. lra. Qed.

Lemma apen_C_bound (rri : list R) (tol : R) (k : nat) :
  (k <= length rri)%nat -> 0 <= tol ->
  Forall (fun c => / (INR (length rri) - INR k + 1) <= c /\ 0 < c) (apen_C rri tol k).
Proof.
  intros Hk Htol. pose proof (apen_denominator_pos _ _ Hk) as HD.
  apply Forall_forall. intros c Hc. unfold apen_C in Hc.
  apply in_map_iff in Hc. destruct Hc as [x_i [<- Hin]].
  pose proof (count_matches_self tol _ _ Hin Htol) as Hcnt.
  apply le_INR in Hcnt. simpl in Hcnt.
  set (D := INR (length rri) - INR k + 1) in *.
  pose proof (Rinv_0_lt_compat D HD) as Hinv.
  unfold Rdiv. split; nra.
Qed.

Lemma sampen_a_single_template (rri : list R) (m : nat) (tol : R) :
  length rri = S m -> 0 <= tol -> sampen_a rri m tol = 0%Z.
Proof.
  intros Hn Htol. unfold sampen_a. rewrite Hn.
  replace (S m + 1 - S m)%nat with 1%nat by lia.
  unfold templates. simpl. unfold count_matches. simpl.
  rewrite self_match by exact Htol. reflexivity.
Qed.

(** C10.  For a sequence of at least m + 1 intervals and a tolerance factor
    that is not negative, both denominators of the approximate entropy,
    n - m + 1 and n - (m + 1) + 1, are positive, and every entry of C is at
    least the reciprocal of the denominator, hence positive, in phi(m) and in
    phi(m + 1): no division by zero and no logarithm of zero.  Sample entropy
    has no such guarantee: with exactly m + 1 intervals its count A is 0. *)
Theorem approximate_entropy_is_never_degenerate (rri : list R) (m : nat) (r : R) :
  (m + 1 <= length rri)%nat -> 0 <= r ->
  let n := length rri in
  let tol := r * np_std rri in
  (0 < INR n - INR m + 1
   /\ Forall (fun c => / (INR n - INR m + 1) <= c /\ 0 < c) (apen_C rri tol m))
  /\ (0 < INR n - INR (S m) + 1
      /\ Forall (fun c => / (INR n - INR (S m) + 1) <= c /\ 0 < c)
                (apen_C rri tol (S m)))
  /\ (n = S m -> sampen_a rri m tol = 0%Z).
Proof.
  intros Hlen Hr n tol.
  assert (Htol : 0 <= tol).
  { unfold tol. apply Rmult_le_pos; [exact Hr|apply np_std_nonneg]. }
  repeat split.
  - apply apen_denominator_pos. lia.
  - apply apen_C_bound; [lia|exact Htol].
  - apply apen_denominator_pos. lia.
  - apply apen_C_bound; [lia|exact Htol].
  - intros Hn. now apply sampen_a_single_template.
Qed.

(** C10, witness: three intervals, m = 2, r = 0.2. *)
Lemma approximate_entropy_is_never_degenerate_witness :
  let rri := [800; 810; 790] in
  let tol := (1 / 5) * np_std rri in
  (0 < INR 3 - INR 2 + 1
   /\ Forall (fun c => / (INR 3 - INR 2 + 1) <= c /\ 0 < c) (apen_C rri tol 2))
  /\ (0 < INR 3 - INR 3 + 1
      /\ Forall (fun c => / (INR 3 - INR 3 + 1) <= c /\ 0 < c) (apen_C rri tol 3))
  /\ (3%nat = 3%nat -> sampen_a rri 2 tol = 0%Z).
Proof.
  apply (approximate_entropy_is_never_degenerate [800; 810; 790] 2 (1 / 5)).
  - simpl. lia.
  - lra.
Defined.


(** *** What the counts of sample entropy count *)

(** The number of ordered pairs of positions [(i, j)], [i] in [xs] and [j]
    in [ys], [i <> j], whose templates are within [r] of each other in
    Chebyshev distance. *)
Definition ordered_matches (r : R) (xs ys : list (list R)) : nat :=
  length
    (filter (fun ij => negb (fst ij =? snd ij)%nat
                       && Rleb (chebyshev (nth (fst ij) xs []) (nth (snd ij) ys [])) r)
            (list_prod (seq 0 (length xs)) (seq 0 (length ys)))).

Lemma nth_seq_from {A : Type} (d : A) (l pre : list A) (k : nat) :
  length pre = k ->
  map (fun i => nth i (pre ++ l) d) (seq k (length l)) = l.
Proof.
  revert k pre. induction l as [|x l IH]; intros k pre Hk; simpl; [reflexivity|].
  f_equal.
  - rewrite app_nth2; [|lia]. rewrite Hk, Nat.sub_diag. reflexivity.
  - specialize (IH (S k) (pre ++ [x])). rewrite <- app_assoc in IH. simpl in IH.
    apply IH. rewrite length_app. simpl. lia.
Qed.

Lemma map_nth_positions {A : Type} (d : A) (l : list A) :
  map (fun i => nth i l d) (seq 0 (length l)) = l.
Proof. exact (nth_seq_from d l [] 0%nat eq_refl). Qed.

Lemma length_filter_positions {A : Type} (d : A) (f : A -> bool) (l : list A) :
  length (filter f l) = length (filter (fun j => f (nth j l d)) (seq 0 (length l))).
Proof.
  rewrite <- (length_filter_map f (fun j => nth j l d)).
  now rewrite map_nth_positions.
Qed.

Lemma filter_without_position (P : nat -> bool) (i : nat) (l : list nat) :
  NoDup l ->
  length (filter P l)
  = (length (filter (fun j => negb (i =? j)%nat && P j) l)
     + (if existsb (Nat.eqb i) l && P i then 1 else 0))%nat.
Proof.
  induction 1 as [|j l Hnotin Hnd IH]; simpl; [reflexivity|].
  destruct (Nat.eqb_spec i j) as [<-|Hne]; simpl.
  - assert (Hex : existsb (Nat.eqb i) l = false).
    { destruct (existsb (Nat.eqb i) l) eqn:E; [|reflexivity].
      apply existsb_exists in E. destruct E as [k [Hk Ek]].
      apply Nat.eqb_eq in Ek. subst k. contradiction. }
    rewrite Hex in IH. simpl in IH.
    destruct (P i); simpl; lia.
  - destruct (P j); simpl; lia.
Qed.

Lemma count_pairs (F : nat -> nat -> bool) (l l' : list nat) :
  Z.of_nat (length (filter (fun ij => F (fst ij) (snd ij)) (list_prod l l')))
  = Zsum (map (fun i => Z.of_nat (length (filter (F i) l'))) l).
Proof.
  induction l as [|i l IH]; simpl; [reflexivity|].
  rewrite filter_app, length_app, Nat2Z.inj_add, IH. f_equal. f_equal.
  now rewrite length_filter_map.
Qed.

Lemma templates_length (rri : list R) (m k : nat) : length (templates rri m k) = k.
Proof. unfold templates. now rewrite length_map, length_seq. Qed.

Lemma templates_nth (rri : list R) (m k i : nat) :
  (i < k)%nat -> nth i (templates rri m k) [] = template rri m i.
Proof.
  intros Hi. unfold templates.
  rewrite (nth_indep _ [] (template rri m 0)) by (rewrite length_map, length_seq; lia).
  rewrite (map_nth (template rri m)). now rewrite seq_nth.
Qed.

(** Summing, over the templates of [xs], the matches in [ys] minus the
    self-match counts the ordered pairs of distinct positions, as soon as
    [xs] is a prefix of [ys] and the tolerance is not negative. *)
Lemma matches_minus_self (r : R) (xs ys : list (list R)) :
  0 <= r ->
  (length xs <= length ys)%nat ->
  (forall i, (i < length xs)%nat -> nth i xs [] = nth i ys []) ->
  Zsum (map (fun x => (Z.of_nat (count_matches r ys x) - 1)%Z) xs)
  = Z.of_nat (ordered_matches r xs ys).
Proof.
  intros Hr Hlen Hpre. unfold ordered_matches.
  rewrite (count_pairs
             (fun i j => negb (i =? j)%nat
                         && Rleb (chebyshev (nth i xs []) (nth j ys [])) r)).
  rewrite <- (map_nth_positions [] xs) at 1. rewrite map_map.
  f_equal. apply map_ext_in. intros i Hi. apply in_seq in Hi.
  unfold count_matches. rewrite (length_filter_positions []).
  rewrite (filter_without_position _ i) by apply seq_NoDup.
  assert (Hex : existsb (Nat.eqb i) (seq 0 (length ys)) = true).
  { apply existsb_exists. exists i. split; [apply in_seq; lia|apply Nat.eqb_refl]. }
  rewrite Hex, <- (Hpre i) by lia. rewrite self_match by exact Hr. simpl. lia.
Qed.

Lemma sampen_counts (rri : list R) (m : nat) (tol : R) :
  (m + 1 < length rri)%nat -> 0 <= tol ->
  let n := length rri in
  sampen_a rri m tol
  = Z.of_nat (ordered_matches tol (templates rri (S m) (n - m))
                              (templates rri (S m) (n - m)))
  /\ sampen_b rri m tol
     = Z.of_nat (ordered_matches tol (templates rri m (n - m))
                                 (templates rri m (n - m + 1))).
Proof.
  intros Hlen Htol n. unfold sampen_a, sampen_b. fold n.
  replace (n + 1 - S m)%nat with (n - m)%nat by lia.
  replace (n + 1 - m)%nat with (n - m + 1)%nat by lia.
  split; apply matches_minus_self; try exact Htol.
  - lia.
  - reflexivity.
  - rewrite !templates_length. lia.
  - intros i Hi. rewrite templates_length in Hi.
    rewrite !templates_nth by lia. reflexivity.
Qed.

(** C2 (as amended).  For more than m + 1 intervals and a tolerance factor r
    that is not negative, sample entropy is -ln(A/B) with tolerance
    r * std(rri), where A is the number of ordered pairs of distinct
    templates of length m + 1 within the tolerance, and B the number of
    ordered pairs (i, j), i <> j, of templates of length m within the
    tolerance in which j ranges over all n - m + 1 templates but i only over
    the first n - m of them. *)
Theorem sample_entropy_counts_matches (rri : list R) (m : nat) (r : R) :
  (m + 1 < length rri)%nat -> 0 <= r ->
  let n := length rri in
  let tol := r * np_std rri in
  let A := ordered_matches tol (templates rri (S m) (n - m))
                           (templates rri (S m) (n - m)) in
  let B := ordered_matches tol (templates rri m (n - m))
                           (templates rri m (n - m + 1)) in
  sample_entropy rri m r = - ln (INR A / INR B).
Proof.
  intros Hlen Hr n tol A B.
  assert (Htol : 0 <= tol).
  { unfold tol. apply Rmult_le_pos; [exact Hr|apply np_std_nonneg]. }
  destruct (sampen_counts rri m tol Hlen Htol) as [Ha Hb].
  unfold sample_entropy. fold tol. rewrite Ha, Hb, <- !INR_IZR_INZ. reflexivity.
Qed.

(** C2, witness: four intervals, m = 2, r = 0.2. *)
Lemma sample_entropy_counts_matches_witness :
  let rri := [800; 810; 790; 805] in
  let tol := (1 / 5) * np_std rri in
  let A := ordered_matches tol (templates rri 3 (4 - 2)) (templates rri 3 (4 - 2)) in
  let B := ordered_matches tol (templates rri 2 (4 - 2)) (templates rri 2 (4 - 2 + 1)) in
  sample_entropy rri 2 (1 / 5) = - ln (INR A / INR B).
Proof.
  apply (sample_entropy_counts_matches [800; 810; 790; 805] 2 (1 / 5)).
  - simpl. lia.
  - lra.
Defined.


Lemma ordered_matches_all (r : R) (xs ys : list (list R)) :
  (forall i j, (i < length xs)%nat -> (j < length ys)%nat ->
               Rleb (chebyshev (nth i xs []) (nth j ys [])) r = true) ->
  ordered_matches r xs ys
  = length (filter (fun ij => negb (fst ij =? snd ij)%nat)
                   (list_prod (seq 0 (length xs)) (seq 0 (length ys)))).
Proof.
  intros Hall. unfold ordered_matches. f_equal. apply filter_ext_in.
  intros [i j] Hin. apply in_prod_iff in Hin. destruct Hin as [Hi Hj].
  apply in_seq in Hi. apply in_seq in Hj. simpl.
  rewrite Hall by lia. apply andb_true_r.
Qed.

(** C2, counterexample.  On four equal intervals with m = 2 the code's B
    counts 4 ordered pairs (the last of the three templates of length 2 is
    never the first component), not the 6 ordered pairs of distinct templates
    that the claim describes, while A = 2: the code returns -ln(2/4), the
    claim's formula gives -ln(2/6). *)
Lemma sample_entropy_skips_last_template :
  let rri := [1; 1; 1; 1] in
  let tol := (1 / 5) * np_std rri in
  let A := ordered_matches tol (templates rri 3 2) (templates rri 3 2) in
  let B_all := ordered_matches tol (templates rri 2 3) (templates rri 2 3) in
  sample_entropy rri 2 (1 / 5) <> - ln (INR A / INR B_all).
Proof.
  intros rri tol A B_all.
  assert (Htol : 0 <= tol).
  { unfold tol. apply Rmult_le_pos; [lra|apply np_std_nonneg]. }
  assert (Hlen : (2 + 1 < length rri)%nat) by (simpl; lia).
  destruct (sampen_counts rri 2 tol Hlen Htol) as [Ha Hb].
  unfold sample_entropy. fold tol. rewrite Ha, Hb, <- !INR_IZR_INZ.
  change (length rri) with 4%nat. change (4 - 2)%nat with 2%nat.
  change (2 + 1)%nat with 3%nat. fold A.
  assert (HA : A = 2%nat).
  { unfold A. rewrite ordered_matches_all; [reflexivity|].
    intros i j Hi Hj. rewrite templates_length in Hi, Hj.
    rewrite !templates_nth by lia.
    destruct i as [|[|[|i]]]; destruct j as [|[|[|j]]]; try lia;
      cbv [rri template firstn skipn]; now apply self_match. }
  assert (HB : ordered_matches tol (templates rri 2 2) (templates rri 2 3) = 4%nat).
  { rewrite ordered_matches_all; [reflexivity|].
    intros i j Hi Hj. rewrite templates_length in Hi, Hj.
    rewrite !templates_nth by lia.
    destruct i as [|[|[|i]]]; destruct j as [|[|[|j]]]; try lia;
      cbv [rri template firstn skipn]; now apply self_match. }
  assert (HBall : B_all = 6%nat).
  { unfold B_all. rewrite ordered_matches_all; [reflexivity|].
    intros i j Hi Hj. rewrite templates_length in Hi, Hj.
    rewrite !templates_nth by lia.
    destruct i as [|[|[|i]]]; destruct j as [|[|[|j]]]; try lia;
      cbv [rri template firstn skipn]; now apply self_match. }
  rewrite HA, HB, HBall. intros Heq.
  apply Ropp_eq_reg in Heq. simpl in Heq.
  apply ln_inv in Heq; lra.
Qed.

End Entropy.

(** ** Degenerate signals *)

(** A steady heartbeat of 1300 ms for 130 s: the filter removes every
    interval, the duration gate (130 s) passes, and the time-domain family
    fails on the empty sequence; [hrv] prints its notice and returns the
    empty interval array alone. *)
Example hrv_time_on_slow_heartbeat `{Collaborators} :
  hrv None 1000 (Some (repeat 1300 100)) "time" true false
  = Ok ([("rri"%string, VArray [])], [td_notice]).
Proof. vm_compute. reflexivity. Qed.

(** On a constant sequence [np.arange] yields a single edge, the histogram
    has no bin and [np.max] of the empty counts raises. *)
Example compute_geometrical_on_constant_sequence :
  compute_geometrical [800; 800; 800] default_binsize
  = Raise (ValueError zero_size_msg).
Proof. vm_compute. reflexivity. Qed.

(** * Further properties of the module *)

(** ** Interval builder *)

Lemma fold_qmin_in (xs : list Q) (x : Q) : In (fold_left qmin xs x) (x :: xs).
Proof.
  revert x. induction xs as [|y ys IH]; intros x; simpl; [auto|].
  destruct (IH (qmin x y)) as [E|Hin]; [|auto].
  rewrite <- E. unfold qmin. destruct (Qle_bool x y); auto.
Qed.

Lemma fold_qmin_le_init (xs : list Q) (x : Q) : fold_left qmin xs x <= x.
Proof.
  revert x. induction xs as [|y ys IH]; intros x; simpl; [apply Qle_refl|].
  eapply Qle_trans; [apply IH|].
  unfold qmin. destruct (Qle_bool x y) eqn:E; [apply Qle_refl|].
  apply Qlt_le_weak, Qltb_lt. unfold Qltb. now rewrite E.
Qed.

Lemma fold_qmin_lower (xs : list Q) (x y : Q) :
  In y (x :: xs) -> fold_left qmin xs x <= y.
Proof.
  revert x. induction xs as [|z zs IH]; intros x Hin.
  - destruct Hin as [<-|[]]. apply Qle_refl.
  - simpl. destruct Hin as [<-|[<-|Hin]].
    + eapply Qle_trans; [apply fold_qmin_le_init|].
      unfold qmin. destruct (Qle_bool x z) eqn:E; [apply Qle_refl|].
      apply Qlt_le_weak, Qltb_lt. unfold Qltb. now rewrite E.
    + eapply Qle_trans; [apply fold_qmin_le_init|].
      unfold qmin. destruct (Qle_bool x z) eqn:E; [now apply Qle_bool_iff|apply Qle_refl].
    + apply IH. now right.
Qed.

(** X1.  The builder needs two beats: with fewer it raises numpy's
    ValueError on the minimum of an empty array, with two or more it returns
    one interval fewer than the beats. *)
Theorem compute_rri_needs_two_beats (rpeaks : list Q) (sampling_rate : Q) :
  ((length rpeaks < 2)%nat ->
   compute_rri rpeaks sampling_rate = Raise (ValueError zero_size_msg))
  /\ ((2 <= length rpeaks)%nat ->
      exists rri w, compute_rri rpeaks sampling_rate = Ok (rri, w)
                    /\ length rri = (length rpeaks - 1)%nat).
Proof.
  split.
  - intros Hlen. destruct rpeaks as [|a [|b t]]; try reflexivity. simpl in Hlen. lia.
  - intros Hlen. destruct (compute_rri_returns rpeaks sampling_rate Hlen)
      as [rri [w [Heq [Hl _]]]]. eauto.
Qed.

(** X2.  When the builder returns, the warning is emitted exactly when some
    interval is below 400 ms or every interval is above 1400 ms. *)
Theorem compute_rri_warning_condition (rpeaks : list Q) (sampling_rate : Q)
    (rri : list Q) (w : list string) :
  compute_rri rpeaks sampling_rate = Ok (rri, w) ->
  (w = [rri_warning]
   <-> (Exists (fun x => x < 400) rri \/ Forall (fun x => 1400 < x) rri))
  /\ (w = [] \/ w = [rri_warning]).
Proof.
  unfold compute_rri.
  set (l := map (fun d => 1000 * d / sampling_rate) (np_diff rpeaks)).
  destruct l as [|x xs] eqn:El; simpl; [discriminate|].
  set (mn := fold_left qmin xs x). intros [= <- <-].
  pose proof (fold_qmin_in xs x) as Hin. fold mn in Hin.
  pose proof (fold_qmin_lower xs x) as Hlow. fold mn in Hlow.
  destruct (Qltb mn 400) eqn:E1; simpl.
  - split; [|auto]. split; [intros _|reflexivity].
    left. apply Exists_exists. exists mn. split; [exact Hin|now apply Qltb_lt].
  - destruct (Qltb 1400 mn) eqn:E2.
    + split; [|auto]. split; [intros _|reflexivity].
      right. apply Forall_forall. intros y Hy.
      eapply Qlt_le_trans; [apply Qltb_lt; exact E2|now apply Hlow].
    + split; [|auto]. split; [discriminate|].
      intros [Hex|Hall]; exfalso.
      * apply Exists_exists in Hex. destruct Hex as [y [Hy Hlt]].
        assert (mn < 400) by (eapply Qle_lt_trans; [apply Hlow; exact Hy|exact Hlt]).
        apply Qltb_lt in H. congruence.
      * rewrite Forall_forall in Hall. specialize (Hall mn Hin).
        apply Qltb_lt in Hall. congruence.
Qed.

Lemma compute_rri_warning_condition_witness :
  exists rri w,
    compute_rri [0; 800; 2800] 1000 = Ok (rri, w)
    /\ (w = [rri_warning]
        <-> (Exists (fun x => x < 400) rri \/ Forall (fun x => 1400 < x) rri))
    /\ (w = [] \/ w = [rri_warning]).
Proof.
  eexists. eexists. split; [vm_compute; reflexivity|].
  apply (compute_rri_warning_condition [0; 800; 2800] 1000). vm_compute. reflexivity.
Defined.

Lemma np_sum_diff (a : Q) (l : list Q) :
  np_sum (np_diff (a :: l)) == last (a :: l) 0 - a.
Proof.
  revert a. induction l as [|b l IH]; intros a.
  - simpl. ring.
  - change (np_diff (a :: b :: l)) with ((b - a) :: np_diff (b :: l)).
    change (np_sum ((b - a) :: np_diff (b :: l)))
      with ((b - a) + np_sum (np_diff (b :: l))).
    rewrite IH. change (last (a :: b :: l) 0) with (last (b :: l) 0). ring.
Qed.

(** X3.  The duration that [hrv] derives from beats is the time between the
    first and the last beat: the intervals (ms) sum to 1000 times the span of
    the beat indices over the sampling rate. *)
Theorem compute_rri_sums_to_span (rpeaks : list Q) (sampling_rate : Q)
    (rri : list Q) (w : list string) :
  0 < sampling_rate ->
  compute_rri rpeaks sampling_rate = Ok (rri, w) ->
  np_sum rri / 1000 == (last rpeaks 0 - hd 0 rpeaks) / sampling_rate.
Proof.
  intros Hsr. unfold compute_rri.
  destruct (np_min _) as [mn|e] eqn:E; simpl; [|discriminate].
  intros [= <- _].
  destruct rpeaks as [|a l]; [discriminate|].
  rewrite (np_sum_map_ext _ (fun d => d * (1000 / sampling_rate)))
    by (intros d _; field; lra).
  rewrite np_sum_map_scale. rewrite map_id, np_sum_diff. simpl hd.
  field. lra.
Qed.

Lemma compute_rri_sums_to_span_witness :
  exists rri w,
    compute_rri [0; 800; 2800] 1000 = Ok (rri, w)
    /\ np_sum rri / 1000 == (last [0; 800; 2800] 0 - hd 0 [0; 800; 2800]) / 1000.
Proof.
  eexists. eexists. split; [vm_compute; reflexivity|].
  apply (compute_rri_sums_to_span [0; 800; 2800] 1000 _ []);
    [reflexivity|vm_compute; reflexivity].
Defined.

Lemma np_diff_sorted (l : list Q) :
  Sorted Qlt l -> Forall (fun d => 0 < d) (np_diff l).
Proof.
  induction 1 as [|a l Hs IH Hhd]; [constructor|].
  destruct l as [|b l]; [constructor|].
  change (np_diff (a :: b :: l)) with ((b - a) :: np_diff (b :: l)).
  constructor; [|exact IH].
  inversion Hhd; subst. lra.
Qed.

(** X4.  Strictly increasing beat indices and a positive sampling rate give
    positive intervals. *)
Theorem compute_rri_positive (rpeaks : list Q) (sampling_rate : Q)
    (rri : list Q) (w : list string) :
  Sorted Qlt rpeaks -> 0 < sampling_rate ->
  compute_rri rpeaks sampling_rate = Ok (rri, w) ->
  Forall (fun x => 0 < x) rri.
Proof.
  intros Hs Hsr. unfold compute_rri.
  destruct (np_min _) as [mn|e]; simpl; [|discriminate].
  intros [= <- _]. apply Forall_forall. intros x Hx.
  apply in_map_iff in Hx. destruct Hx as [d [<- Hd]].
  pose proof (np_diff_sorted rpeaks Hs) as Hpos. rewrite Forall_forall in Hpos.
  specialize (Hpos d Hd).
  apply Qlt_shift_div_l; [exact Hsr|]. lra.
Qed.

Lemma compute_rri_positive_witness :
  exists rri w,
    compute_rri [0; 800; 2800] 1000 = Ok (rri, w) /\ Forall (fun x => 0 < x) rri.
Proof.
  eexists. eexists. split; [vm_compute; reflexivity|].
  apply (compute_rri_positive [0; 800; 2800] 1000 _ []).
  - repeat constructor.
  - reflexivity.
  - vm_compute. reflexivity.
Defined.

(** ** RRI filter *)

Lemma Qltb_qmin (x a b : Q) : Qltb x a && Qltb x b = Qltb x (qmin a b).
Proof.
  unfold qmin. destruct (Qle_bool a b) eqn:E.
  - destruct (Qltb x a) eqn:Ea; simpl; [|reflexivity].
    apply Qltb_lt. apply Qltb_lt in Ea. apply Qle_bool_iff in E. lra.
  - destruct (Qltb x b) eqn:Eb; [|apply andb_false_r].
    rewrite andb_true_r. apply Qltb_lt. apply Qltb_lt in Eb.
    assert (b < a) by (apply Qltb_lt; unfold Qltb; now rewrite E). lra.
Qed.

(** X5.  Filtering with one threshold and then with another is filtering
    once with the smaller of the two; the filter never lengthens the
    sequence. *)
Theorem rri_filter_twice (rri : list Q) (a b : Q) :
  rri_filter (rri_filter rri a) b = rri_filter rri (qmin a b)
  /\ (length (rri_filter rri a) <= length rri)%nat.
Proof.
  split.
  - unfold rri_filter. induction rri as [|x l IH]; simpl; [reflexivity|].
    rewrite <- Qltb_qmin.
    destruct (Qltb x a); simpl; [destruct (Qltb x b); simpl; now rewrite IH|exact IH].
  - unfold rri_filter. apply filter_length_le.
Qed.

(** ** Pipeline orchestrator: validation, overriding and propagation *)

Definition selector_msg (parameters : string) : string :=
  ("'" ++ parameters ++ "' is not an available input. Enter one from: " ++
   "['auto', 'time', 'frequency', 'non-linear', 'all'].")%string.

Definition is_value_error (e : exn) : Prop := exists msg, e = ValueError msg.

Lemma try_family_raise st family notice e :
  try_family st family notice = Raise e -> ~ is_value_error e.
Proof.
  unfold try_family. destruct family as [features|[msg| | | |]]; try discriminate;
    intros [= <-] [msg' Hm]; discriminate.
Qed.

Section OrchestratorMore.
Context `{Collaborators}.

Lemma hrv_features_raise parameters detrend_rri p e :
  hrv_features parameters detrend_rri p = Raise e -> ~ is_value_error e.
Proof.
  unfold hrv_features. intros Hr.
  apply bind_raise in Hr. destruct Hr as [Hr|[st1 [_ Hr]]].
  { destruct (member parameters _); [|discriminate].
    eapply try_family_raise; eauto. }
  apply bind_raise in Hr. destruct Hr as [Hr|[st2 [_ Hr]]].
  { destruct (member parameters _); [|discriminate].
    eapply try_family_raise; eauto. }
  destruct (member parameters _); [|discriminate].
  eapply try_family_raise; eauto.
Qed.

(** X6.  Supplied intervals override the beats: the result of [hrv] then
    depends neither on the beat indices nor on the sampling rate. *)
Theorem hrv_intervals_override_beats rpeaks rpeaks' sampling_rate sampling_rate'
    (rri : list Q) parameters filter_rri detrend_rri :
  hrv rpeaks sampling_rate (Some rri) parameters filter_rri detrend_rri
  = hrv rpeaks' sampling_rate' (Some rri) parameters filter_rri detrend_rri.
Proof.
  unfold hrv, hrv_prepare. destruct rpeaks, rpeaks'; reflexivity.
Qed.

(** X7.  Validation in [hrv]: without beats and without intervals it raises
    a TypeError whatever the selector; with intervals supplied, an unknown
    selector raises the ValueError that lists the choices, and a known one
    never lets a ValueError out, since those of the families are caught. *)
Theorem hrv_input_validation rpeaks sampling_rate (rri : list Q) parameters
    filter_rri detrend_rri :
  hrv None sampling_rate None parameters filter_rri detrend_rri
    = Raise (TypeError "Please specify an R-Peak or RRI list or array.")
  /\ (member parameters parameters_list = false ->
      hrv rpeaks sampling_rate (Some rri) parameters filter_rri detrend_rri
      = Raise (ValueError (selector_msg parameters)))
  /\ (member parameters parameters_list = true ->
      forall e,
        hrv rpeaks sampling_rate (Some rri) parameters filter_rri detrend_rri = Raise e ->
        ~ is_value_error e).
Proof.
  split; [reflexivity|]. split.
  - intros Hm. unfold hrv, hrv_prepare. rewrite Hm.
    destruct rpeaks; reflexivity.
  - intros Hm e Hr. unfold hrv in Hr.
    destruct (hrv_prepare_given rpeaks sampling_rate rri parameters filter_rri
                detrend_rri Hm) as [p Hp].
    rewrite Hp in Hr. cbn [bind] in Hr.
    eapply hrv_features_raise; eauto.
Qed.



Lemma try_family_extends st family notice st' :
  try_family st family notice = Ok st' ->
  (exists more, fst st' = fst st ++ more)
  /\ (exists notices, snd st' = snd st ++ notices /\ incl notices [notice]).
Proof.
  unfold try_family. destruct family as [features|[msg| | | |]]; try discriminate;
    intros [= <-]; simpl.
  - split; [exists features; reflexivity|].
    exists []. rewrite app_nil_r. split; [reflexivity|intros a []].
  - split; [exists []; now rewrite app_nil_r|].
    exists [notice]. split; [reflexivity|apply incl_refl].
Qed.

(** X9.  Whenever [hrv] returns on supplied intervals, its first entry is
    'rri', holding the filtered intervals (the supplied ones when filtering
    is off), and the only messages are the families' notices. *)
Theorem hrv_output_starts_with_intervals rpeaks sampling_rate (rri : list Q)
    parameters filter_rri detrend_rri out log :
  hrv rpeaks sampling_rate (Some rri) parameters filter_rri detrend_rri = Ok (out, log) ->
  (exists features,
     out = ("rri"%string,
            VArray (if filter_rri then rri_filter rri default_threshold else rri))
           :: features)
  /\ incl log [td_notice; fd_notice; nl_notice].
Proof.
  unfold hrv. intros Hr. apply bind_ok in Hr. destruct Hr as [p [Hp Hr]].
  destruct (hrv_prepare_inv _ _ _ _ _ _ _ Hp) as [rri0 [Hin [Hrri _]]].
  assert (rri0 = rri) as ->.
  { destruct Hin as [[= ->]|[Hn _]]; [reflexivity|discriminate]. }
  assert (Hw : p_warnings p = []).
  { unfold hrv_prepare in Hp.
    destruct (negb (member parameters parameters_list));
      [destruct rpeaks; discriminate|].
    destruct rpeaks; simpl in Hp; injection Hp as <-; reflexivity. }
  unfold hrv_features in Hr. rewrite Hw, Hrri in Hr.
  set (first := ("rri"%string,
                 VArray (if filter_rri then rri_filter rri default_threshold else rri)))
    in *.
  assert (Hstep : forall (b : bool) st family notice st',
             (if b then try_family st family notice else Ok st) = Ok st' ->
             (exists more, fst st' = fst st ++ more)
             /\ (exists notices, snd st' = snd st ++ notices /\ incl notices [notice])).
  { intros [|] st family notice st' Hs; [now apply try_family_extends in Hs|].
    injection Hs as <-. split; [exists []; now rewrite app_nil_r|].
    exists []. rewrite app_nil_r. split; [reflexivity|intros a []]. }
  apply bind_ok in Hr. destruct Hr as [st1 [H1 Hr]].
  apply bind_ok in Hr. destruct Hr as [st2 [H2 H3]].
  apply Hstep in H1. apply Hstep in H2. apply Hstep in H3.
  destruct H1 as [[m1 E1] [n1 [F1 I1]]], H2 as [[m2 E2] [n2 [F2 I2]]],
           H3 as [[m3 E3] [n3 [F3 I3]]].
  cbn [fst snd] in *. rewrite E2, E1 in E3. rewrite F2, F1 in F3.
  unfold rt_append in E3. simpl in E3, F3. subst out log.
  split; [eexists; reflexivity|].
  intros a Ha. apply in_app_or in Ha. destruct Ha as [Ha|Ha].
  - apply in_app_or in Ha. destruct Ha as [Ha|Ha].
    + apply I1 in Ha. destruct Ha as [<-|[]]. simpl. auto.
    + apply I2 in Ha. destruct Ha as [<-|[]]. simpl. auto.
  - apply I3 in Ha. destruct Ha as [<-|[]]. simpl. auto.
Qed.

End OrchestratorMore.


Lemma hrv_output_starts_with_intervals_witness :
  incl [td_notice] [td_notice; fd_notice; nl_notice]
  /\ forall C : Collaborators,
    (exists features,
       [("rri"%string, VArray (@nil Q))]
       = ("rri"%string,
          VArray (if true then rri_filter (repeat 1300 100) default_threshold
                  else repeat 1300 100)) :: features)
    /\ incl [td_notice] [td_notice; fd_notice; nl_notice].
Proof.
  split; [intros a [<-|[]]; simpl; auto|]. intros C.
  apply (hrv_output_starts_with_intervals None 1000 (repeat 1300 100) "time" true false).
  vm_compute. reflexivity.
Defined.

(** ** Histogram-triangle solver: constant signals and the triangular index *)

Lemma fold_qmin_repeat (x : Q) (n : nat) : fold_left qmin (repeat x n) x = x.
Proof.
  induction n as [|n IH]; simpl; [reflexivity|].
  unfold qmin at 2. destruct (Qle_bool x x); exact IH.
Qed.

Lemma fold_qmax_repeat (x : Q) (n : nat) : fold_left qmax (repeat x n) x = x.
Proof.
  induction n as [|n IH]; simpl; [reflexivity|].
  unfold qmax at 2. destruct (Qle_bool x x); exact IH.
Qed.

(** X10.  On a constant sequence the solver always fails: [np.arange]
    yields a single edge, the histogram has no bin and [np.max] of the empty
    counts raises a ValueError. *)
Theorem compute_geometrical_constant_raises (x binsize : Q) (n : nat) :
  0 < binsize ->
  compute_geometrical (repeat x (S n)) binsize = Raise (ValueError zero_size_msg).
Proof.
  intros Hb. unfold compute_geometrical, geometrical_bins.
  cbn [repeat np_min np_max bind]. rewrite fold_qmin_repeat, fold_qmax_repeat.
  unfold np_arange.
  assert (Hc : Qceiling ((x + binsize * 1000 - x) / (binsize * 1000)) = 1%Z).
  { rewrite <- (Qceiling_Z 1). apply Qceiling_comp. field. lra. }
  rewrite Hc. reflexivity.
Qed.

Lemma compute_geometrical_constant_raises_witness :
  compute_geometrical (repeat 800 (S 149)) default_binsize
  = Raise (ValueError zero_size_msg).
Proof.
  apply (compute_geometrical_constant_raises 800 default_binsize 149). reflexivity.
Defined.




Lemma np_max_int_spec (l : list Z) (mc : Z) :
  np_max_int l = Ok mc -> forall c, In c l -> (c <= mc)%Z.
Proof.
  destruct l as [|x xs]; [discriminate|]. simpl. intros [= <-].
  assert (Hgen : forall xs x, (x <= fold_left Z.max xs x)%Z
                              /\ forall c, In c xs -> (c <= fold_left Z.max xs x)%Z).
  { clear. induction xs as [|y ys IH]; intros x; simpl; [split; [lia|tauto]|].
    destruct (IH (Z.max x y)) as [H1 H2]. split; [lia|].
    intros c [<-|Hc]; [lia|auto]. }
  intros c [<-|Hc]; [apply (proj1 (Hgen xs x))|now apply (proj2 (Hgen xs x))].
Qed.

Lemma np_max_int_bound (l : list Z) (mc bound : Z) :
  np_max_int l = Ok mc -> (forall c, In c l -> (c <= bound)%Z) -> (mc <= bound)%Z.
Proof.
  destruct l as [|x xs]; [discriminate|]. simpl. intros [= <-] Hb.
  assert (Hx : (x <= bound)%Z) by (apply Hb; now left).
  assert (Hxs : forall c, In c xs -> (c <= bound)%Z) by (intros c Hc; apply Hb; now right).
  clear Hb. revert x Hx. induction xs as [|y ys IH]; intros x Hx; simpl; [exact Hx|].
  apply IH; [intros c Hc; apply Hxs; now right|].
  assert ((y <= bound)%Z) by (apply Hxs; now left). lia.
Qed.

Lemma np_histogram_bound (a bins : list Q) (c : Z) :
  In c (np_histogram a bins) -> (c <= Z.of_nat (length a))%Z.
Proof.
  induction bins as [|lo [|hi more] IH]; simpl; try tauto.
  intros [<-|Hc]; [|exact (IH Hc)].
  apply Nat2Z.inj_le. apply filter_length_le.
Qed.

(** X12.  Whenever the solver returns, the triangular index lies between 1
    and the number of intervals: the peak bin holds at least the minimum of
    the sequence and at most all of it. *)
Theorem compute_geometrical_hti_range (rri : list Q) (binsize hti tinn : Q) :
  0 < binsize ->
  compute_geometrical rri binsize
    = Ok [("hti"%string, VFloat hti); ("tinn"%string, VFloat tinn)] ->
  1 <= hti /\ hti <= np_len rri.
Proof.
  intros Hb. unfold compute_geometrical, geometrical_bins.
  destruct rri as [|x xs]; simpl; [discriminate|].
  set (tmin := fold_left qmin xs x). set (tmax := fold_left qmax xs x).
  set (B := binsize * 1000).
  assert (HB : 0 < B) by (unfold B; lra).
  set (bins := np_arange tmin (tmax + B) B).
  set (hist := np_histogram (x :: xs) bins).
  destruct (np_max_int hist) as [mc|e] eqn:Emax; simpl; [|discriminate].
  destruct (triangle_search _ _ _ _ _ _ _ _ _) as [best|e]; simpl; [|discriminate].
  intros [= <- _].
  assert (Hup : (mc <= Z.of_nat (length (x :: xs)))%Z).
  { apply (np_max_int_bound hist); [exact Emax|].
    intros c Hc. exact (np_histogram_bound _ _ _ Hc). }
  assert (Hlow : (1 <= mc)%Z).
  { unfold hist in Emax. unfold bins, np_arange in Emax.
    destruct (Z.to_nat (Qceiling ((tmax + B - tmin) / B))) as [|[|k]];
      try discriminate.
    change (seq 0 (S (S k))) with (0 :: 1 :: seq 2 k)%nat in Emax.
    cbn [map np_histogram] in Emax.
    pose proof (fold_qmin_in xs x) as Hin. fold tmin in Hin.
    set (sel := in_bin _ _ _) in *.
    assert (Hc0 : (Z.of_nat (length (filter sel (x :: xs))) <= mc)%Z)
      by (apply (np_max_int_spec _ _ Emax); now left).
    assert (Hsel : sel tmin = true).
    { unfold sel, in_bin.
      change (inject_Z (Z.of_nat 0)) with 0. change (inject_Z (Z.of_nat 1)) with 1.
      apply andb_true_iff. split.
      - apply Qle_bool_iff. lra.
      - destruct (map _ (seq 2 k)); [apply Qle_bool_iff|apply Qltb_lt]; lra. }
    assert (Hf : In tmin (filter sel (x :: xs))) by (apply filter_In; auto).
    destruct (filter sel (x :: xs)); [contradiction|]. simpl length in Hc0. lia. }
  assert (Hmcpos : 0 < inject_Z mc).
  { change 0 with (inject_Z 0). rewrite <- Zlt_Qlt. lia. }
  assert (Hle : inject_Z mc <= np_len (x :: xs)).
  { unfold np_len. rewrite <- Zle_Qle. exact Hup. }
  assert (Hone : 1 <= inject_Z mc).
  { change 1 with (inject_Z 1). rewrite <- Zle_Qle. exact Hlow. }
  fold (np_len (x :: xs)). split.
  - apply Qle_shift_div_l; [exact Hmcpos|]. lra.
  - apply Qle_shift_div_r; [exact Hmcpos|].
    assert (0 <= np_len (x :: xs)) by lra. nra.
Qed.

Lemma compute_geometrical_hti_range_witness :
  0 < default_binsize
  /\ compute_geometrical [500; 520; 510; 530; 515] default_binsize
      = Ok [("hti"%string, VFloat (5 # 2));
            ("tinn"%string, VFloat (512000 # 16384))]
  /\ 1 <= 5 # 2 /\ 5 # 2 <= np_len [500; 520; 510; 530; 515].
Proof.
  split; [reflexivity|]. split; [vm_compute; reflexivity|].
  apply (compute_geometrical_hti_range [500; 520; 510; 530; 515] default_binsize
           (5 # 2) (512000 # 16384)); [reflexivity|vm_compute; reflexivity].
Defined.

(** ** Windowed detrender *)

Lemma firstn_plus {A : Type} (k s : nat) (l : list A) :
  firstn (k + s) l = firstn k l ++ firstn s (skipn k l).
Proof.
  revert l. induction k as [|k IH]; intros l; [reflexivity|].
  destruct l as [|x l]; simpl; [now rewrite firstn_nil|].
  now rewrite IH.
Qed.

Lemma concat_take_sections (sizes : list nat) (l : list Q) :
  concat (take_sections sizes l) = firstn (list_sum sizes) l.
Proof.
  revert l. induction sizes as [|k ks IH]; intros l; simpl; [reflexivity|].
  now rewrite IH, firstn_plus.
Qed.

Lemma take_sections_lengths (sizes : list nat) (l : list Q) :
  (list_sum sizes <= length l)%nat ->
  map (@length Q) (take_sections sizes l) = sizes.
Proof.
  revert l. induction sizes as [|k ks IH]; intros l; simpl; [reflexivity|].
  intros Hle. rewrite IH by (rewrite length_skipn; lia).
  rewrite firstn_length_le by lia. reflexivity.
Qed.

Lemma list_sum_repeat (a n : nat) : list_sum (repeat a n) = (n * a)%nat.
Proof. induction n as [|n IH]; simpl; [reflexivity|]. rewrite IH. lia. Qed.

Lemma array_split_sizes (len n : nat) :
  (1 <= n)%nat ->
  list_sum (repeat (S (len / n)) (len mod n) ++ repeat (len / n) (n - len mod n))%nat
  = len.
Proof.
  intros Hn. rewrite list_sum_app, !list_sum_repeat.
  pose proof (Nat.div_mod_eq len n) as Hd.
  pose proof (Nat.mod_upper_bound len n ltac:(lia)) as Hm.
  nia.
Qed.

(** X13.  Splitting into [n >= 1] sections loses nothing: there are exactly
    [n] sections, they concatenate back to the array, and every section
    holds [len / n] or [len / n + 1] elements. *)
Theorem np_array_split_partitions (l : list Q) (n : nat) :
  (1 <= n)%nat ->
  concat (np_array_split l n) = l
  /\ length (np_array_split l n) = n
  /\ Forall (fun s => (length l / n <= length s <= S (length l / n))%nat)
            (np_array_split l n).
Proof.
  intros Hn. unfold np_array_split.
  set (sizes := (repeat (S (length l / n)) (length l mod n)
                 ++ repeat (length l / n) (n - length l mod n))%nat).
  assert (Hsum : list_sum sizes = length l) by (apply array_split_sizes; exact Hn).
  assert (Hlen : map (@length Q) (take_sections sizes l) = sizes)
    by (apply take_sections_lengths; lia).
  split; [|split].
  - rewrite concat_take_sections, Hsum. apply firstn_all.
  - rewrite <- (length_map (@length Q)), Hlen. unfold sizes.
    rewrite length_app, !repeat_length.
    pose proof (Nat.mod_upper_bound (length l) n ltac:(lia)). lia.
  - apply Forall_forall. intros s Hs.
    apply (in_map (@length Q)) in Hs. rewrite Hlen in Hs. unfold sizes in Hs.
    apply in_app_or in Hs. destruct Hs as [Hs|Hs]; apply repeat_spec in Hs; lia.
Qed.

Lemma np_array_split_partitions_witness :
  (1 <= 2)%nat
  /\ concat (np_array_split [1; 2; 3; 4; 5] 2) = [1; 2; 3; 4; 5]
  /\ length (np_array_split [1; 2; 3; 4; 5] 2) = 2%nat
  /\ Forall (fun s => (length [1; 2; 3; 4; 5] / 2 <= length s
                       <= S (length [1; 2; 3; 4; 5] / 2))%nat)
            (np_array_split [1; 2; 3; 4; 5] 2).
Proof.
  split; [lia|]. apply (np_array_split_partitions [1; 2; 3; 4; 5] 2). lia.
Defined.

(** X14.  With a detrender that keeps the length of what it is given, the
    windowed detrender keeps the length of the sequence, whether or not it
    splits it. *)
Theorem detrend_window_preserves_length `{Collaborators}
    (rri : list Q) (win_len : nat) :
  (forall s f, length (detrend_smoothness_priors s f) = length s) ->
  (1 <= win_len)%nat ->
  length (detrend_window rri win_len) = length rri.
Proof.
  intros Hdet Hw. unfold detrend_window.
  destruct (win_len <? length rri)%nat eqn:E; [|apply Hdet].
  apply Nat.ltb_lt in E.
  set (splits := (length rri / win_len)%nat).
  assert (Hs : (1 <= splits)%nat).
  { unfold splits. apply Nat.div_str_pos. lia. }
  rewrite length_concat, map_map.
  rewrite (map_ext _ (@length Q)) by (intros s; apply Hdet).
  rewrite <- length_concat. unfold np_array_split.
  rewrite (concat_take_sections _ rri).
  rewrite array_split_sizes by exact Hs. now rewrite firstn_all.
Qed.

Lemma detrend_window_preserves_length_witness :
  let C := Build_Collaborators (fun s _ => s) (fun _ _ _ => None)
                               (fun _ _ _ => ([], [])) in
  (forall s f, length (@detrend_smoothness_priors C s f) = length s)
  /\ (1 <= 2)%nat
  /\ length (@detrend_window C [1; 2; 3; 4; 5] 2) = length [1; 2; 3; 4; 5].
Proof.
  intros C. split; [reflexivity|]. split; [lia|].
  apply (@detrend_window_preserves_length C [1; 2; 3; 4; 5] 2); [reflexivity|lia].
Defined.

(** ** Poincare descriptors *)

Section Poincare.
Local Open Scope R_scope.

Lemma removelast_map {A B : Type} (f : A -> B) (l : list A) :
  removelast (map f l) = map f (removelast l).
Proof.
  induction l as [|x [|y l] IH]; [reflexivity|reflexivity|].
  change (f x :: removelast (map f (y :: l)) = f x :: map f (removelast (y :: l))).
  now rewrite IH.
Qed.

Lemma combine_map_same {A B : Type} (f : A -> B) (a b : list A) :
  combine (map f a) (map f b) = map (fun p => (f (fst p), f (snd p))) (combine a b).
Proof.
  revert b. induction a as [|x a IH]; intros [|y b]; simpl; try reflexivity.
  now rewrite IH.
Qed.

(** X15.  The Poincare descriptors do not depend on a constant offset of the
    intervals: both projections are standard deviations, which an offset
    leaves unchanged. *)
Theorem compute_poincare_offset_invariant (c : R) (rri : list R) :
  compute_poincare (map (fun x => x + c) rri) = compute_poincare rri.
Proof.
  unfold compute_poincare.
  rewrite removelast_map.
  replace (tl (map (fun x => x + c) rri)) with (map (fun x => x + c) (tl rri))
    by (destruct rri; reflexivity).
  rewrite combine_map_same, !map_map. cbn [fst snd].
  set (pts := combine (removelast rri) (tl rri)).
  assert (H1 : map (fun p : R * R => (fst p + c - (snd p + c)) / sqrt 2) pts
               = map (fun p => (fst p - snd p) / sqrt 2) pts).
  { apply map_ext. intros p. unfold Rdiv. ring. }
  assert (H2 : map (fun p : R * R => (fst p + c + (snd p + c)) / sqrt 2) pts
               = map (fun x => x + 2 * c / sqrt 2)
                     (map (fun p => (fst p + snd p) / sqrt 2) pts)).
  { rewrite map_map. apply map_ext. intros p. unfold Rdiv. ring. }
  rewrite H1, H2, np_std_shift. reflexivity.
Qed.

(** X16.  Both deviations and the ellipse area are non-negative, and the two
    ratios are reciprocal whenever both deviations are positive. *)
Theorem compute_poincare_descriptors (rri : list R) :
  exists s sd1 sd2 sd12 sd21,
    compute_poincare rri
    = [("s"%string, VReal s); ("sd1"%string, VReal sd1); ("sd2"%string, VReal sd2);
       ("sd12"%string, VReal sd12); ("sd21"%string, VReal sd21)]
    /\ 0 <= sd1 /\ 0 <= sd2 /\ 0 <= s
    /\ (0 < sd1 -> 0 < sd2 -> sd12 * sd21 = 1).
Proof.
  unfold compute_poincare, rt_append. cbn [combine app].
  set (sd1 := np_std _). set (sd2 := np_std _).
  exists (PI * sd1 * sd2), sd1, sd2, (sd1 / sd2), (sd2 / sd1).
  pose proof (np_std_nonneg
                (map (fun p => (fst p - snd p) / sqrt 2)
                     (combine (removelast rri) (tl rri)))) as H1.
  pose proof (np_std_nonneg
                (map (fun p => (fst p + snd p) / sqrt 2)
                     (combine (removelast rri) (tl rri)))) as H2.
  fold sd1 in H1. fold sd2 in H2. pose proof PI_RGT_0 as Hpi.
  split; [reflexivity|]. split; [exact H1|]. split; [exact H2|]. split.
  - apply Rmult_le_pos; [apply Rmult_le_pos; lra|exact H2].
  - intros Hp1 Hp2. field. lra.
Qed.

End Poincare.

(** ** Bounds on the entropy estimators *)

Section EntropyBounds.
Local Open Scope R_scope.

Lemma ln_le_one (x : R) : 0 < x -> x <= 1 -> ln x <= 0.
Proof.
  intros Hx [Hlt|Heq]; [|rewrite Heq, ln_1; lra].
  pose proof (ln_increasing x 1 Hx Hlt) as H. rewrite ln_1 in H. lra.
Qed.

Lemma fold_Rmax_ge (xs : list R) (a : R) :
  a <= fold_left Rmax xs a /\ forall y, In y xs -> y <= fold_left Rmax xs a.
Proof.
  revert a. induction xs as [|x xs IH]; intros a; simpl; [split; [lra|tauto]|].
  destruct (IH (Rmax a x)) as [H1 H2]. split.
  - eapply Rle_trans; [apply Rmax_l|exact H1].
  - intros y [<-|Hy]; [eapply Rle_trans; [apply Rmax_r|exact H1]|auto].
Qed.

Lemma fold_Rmax_in (xs : list R) (a : R) : In (fold_left Rmax xs a) (a :: xs).
Proof.
  revert a. induction xs as [|x xs IH]; intros a; simpl; [auto|].
  destruct (IH (Rmax a x)) as [Heq|Hin]; [|auto].
  rewrite <- Heq. unfold Rmax. destruct (Rle_dec a x); auto.
Qed.

Lemma Rlist_max_ge (l : list R) (x : R) : In x l -> x <= Rlist_max l.
Proof.
  destruct l as [|a xs]; simpl; [tauto|].
  destruct (fold_Rmax_ge xs a) as [H1 H2]. intros [<-|Hin]; auto.
Qed.

Lemma Rlist_max_nonneg (l : list R) :
  Forall (fun d => 0 <= d) l -> 0 <= Rlist_max l.
Proof.
  destruct l as [|a xs]; simpl; [lra|]. intros Hall.
  rewrite Forall_forall in Hall. apply Hall. apply fold_Rmax_in.
Qed.

Lemma in_firstn {A : Type} (n : nat) (l : list A) (x : A) :
  In x (firstn n l) -> In x l.
Proof.
  intros Hin. rewrite <- (firstn_skipn n l). apply in_or_app. now left.
Qed.

Lemma Rlist_max_firstn (l : list R) (m : nat) :
  Forall (fun d => 0 <= d) l ->
  Rlist_max (firstn m l) <= Rlist_max (firstn (S m) l).
Proof.
  intros Hall.
  assert (Hall' : Forall (fun d => 0 <= d) (firstn (S m) l)).
  { rewrite Forall_forall in *. intros d Hd. apply Hall. eapply in_firstn; eauto. }
  destruct (firstn m l) as [|a xs] eqn:E.
  - simpl. now apply Rlist_max_nonneg.
  - apply Rlist_max_ge. apply (in_firstn m).
    rewrite firstn_firstn, Nat.min_l by lia. rewrite E.
    simpl. apply fold_Rmax_in.
Qed.

(** Dropping the last coordinate of two templates cannot increase their
    distance. *)
Lemma chebyshev_template (rri : list R) (m i j : nat) :
  chebyshev (template rri m i) (template rri m j)
  <= chebyshev (template rri (S m) i) (template rri (S m) j).
Proof.
  unfold chebyshev, template. rewrite <- !combine_firstn, <- !firstn_map.
  apply Rlist_max_firstn. apply Forall_forall. intros d Hd.
  apply in_map_iff in Hd. destruct Hd as [p [<- _]]. apply Rabs_pos.
Qed.

Lemma filter_length_mono {A : Type} (f g : A -> bool) (l : list A) :
  (forall x, In x l -> f x = true -> g x = true) ->
  (length (filter f l) <= length (filter g l))%nat.
Proof.
  induction l as [|x l IH]; simpl; intros Himp; [lia|].
  specialize (IH (fun y Hy => Himp y (or_intror Hy))).
  destruct (f x) eqn:Ef.
  - rewrite (Himp x (or_introl eq_refl) Ef). simpl. lia.
  - destruct (g x); simpl; lia.
Qed.

Lemma Zsum_map_le {A : Type} (f g : A -> Z) (l : list A) :
  (forall x, In x l -> (f x <= g x)%Z) -> (Zsum (map f l) <= Zsum (map g l))%Z.
Proof.
  induction l as [|x l IH]; simpl; intros Hle; [lia|].
  specialize (IH (fun y Hy => Hle y (or_intror Hy))).
  specialize (Hle x (or_introl eq_refl)). lia.
Qed.

Lemma sampen_a_le_b (rri : list R) (m : nat) (tol : R) :
  (sampen_a rri m tol <= sampen_b rri m tol)%Z.
Proof.
  unfold sampen_a, sampen_b, templates. rewrite !map_map.
  replace (length rri + 1 - S m)%nat with (length rri - m)%nat by lia.
  apply Zsum_map_le. intros i Hi. apply in_seq in Hi.
  unfold count_matches. rewrite !length_filter_map.
  replace (length rri + 1 - m)%nat with (S (length rri - m)) by lia.
  rewrite seq_S, filter_app, length_app.
  pose proof (filter_length_mono
                (fun j => Rleb (chebyshev (template rri (S m) i) (template rri (S m) j)) tol)
                (fun j => Rleb (chebyshev (template rri m i) (template rri m j)) tol)
                (seq 0 (length rri - m))) as Hmono.
  cbv beta in Hmono.
  assert (Himp : forall j, In j (seq 0 (length rri - m)) ->
            Rleb (chebyshev (template rri (S m) i) (template rri (S m) j)) tol = true ->
            Rleb (chebyshev (template rri m i) (template rri m j)) tol = true).
  { intros j _ Hj. apply Rleb_true in Hj. apply Rleb_true.
    eapply Rle_trans; [apply chebyshev_template|exact Hj]. }
  specialize (Hmono Himp). lia.
Qed.

(** X17.  Sample entropy never counts more matches of length [m + 1] than of
    length [m], so whenever at least one match of length [m + 1] exists the
    estimate is a non-negative number. *)
Theorem sample_entropy_nonnegative (rri : list R) (m : nat) (r : R) :
  (1 <= m)%nat ->
  let tol := r * np_std rri in
  (sampen_a rri m tol <= sampen_b rri m tol)%Z
  /\ ((0 < sampen_a rri m tol)%Z -> 0 <= sample_entropy rri m r).
Proof.
  intros _ tol. pose proof (sampen_a_le_b rri m tol) as Hle.
  split; [exact Hle|]. intros Ha. unfold sample_entropy. fold tol.
  assert (Hpa : 0 < IZR (sampen_a rri m tol)) by (apply IZR_lt; exact Ha).
  assert (Hab : IZR (sampen_a rri m tol) <= IZR (sampen_b rri m tol))
    by (apply IZR_le; exact Hle).
  set (a := IZR (sampen_a rri m tol)) in *.
  set (b := IZR (sampen_b rri m tol)) in *.
  assert (Hq : 0 < a / b) by (apply Rdiv_lt_0_compat; lra).
  assert (Hq1 : a / b <= 1).
  { apply (Rmult_le_reg_r b); [lra|]. unfold Rdiv.
    rewrite Rmult_assoc, Rinv_l by lra. lra. }
  pose proof (ln_le_one (a / b) Hq Hq1) as Hln. lra.
Qed.

Lemma sample_entropy_nonnegative_witness :
  let rri := [800; 810; 790; 805] in
  let tol := (1 / 5) * np_std rri in
  (1 <= 2)%nat
  /\ (sampen_a rri 2 tol <= sampen_b rri 2 tol)%Z
  /\ ((0 < sampen_a rri 2 tol)%Z -> 0 <= sample_entropy rri 2 (1 / 5)).
Proof.
  intros rri tol. split; [lia|].
  apply (sample_entropy_nonnegative rri 2 (1 / 5)). lia.
Defined.

Lemma apen_x_length (rri : list R) (m : nat) :
  length (apen_x rri m) = (length rri + 1 - m)%nat.
Proof. unfold apen_x. now rewrite length_map, length_seq. Qed.

Lemma Rsum_nonpos (l : list R) : Forall (fun x => x <= 0) l -> Rsum l <= 0.
Proof.
  induction 1 as [|x l Hx _ IH]; simpl; [lra|]. lra.
Qed.

(** X18.  Every term of the correlation list of approximate entropy is at
    most 1, so each [phi] is a non-positive number. *)
Theorem approximate_entropy_phi_nonpositive (rri : list R) (m : nat) (tol : R) :
  (1 <= m)%nat -> (m <= length rri)%nat -> 0 <= tol ->
  Forall (fun c => c <= 1) (apen_C rri tol m) /\ phi rri tol m <= 0.
Proof.
  intros _ Hm Htol.
  pose proof (apen_denominator_pos (length rri) m Hm) as Hden.
  assert (Hone : Forall (fun c => c <= 1) (apen_C rri tol m)).
  { unfold apen_C. apply Forall_forall. intros c Hc.
    apply in_map_iff in Hc. destruct Hc as [x [<- _]].
    apply (Rmult_le_reg_r (INR (length rri) - INR m + 1)); [exact Hden|].
    unfold Rdiv. rewrite Rmult_assoc, Rinv_l, Rmult_1_r, Rmult_1_l by lra.
    unfold count_matches.
    pose proof (filter_length_le (fun y => Rleb (chebyshev x y) tol) (apen_x rri m)) as Hf.
    rewrite apen_x_length in Hf. apply le_INR in Hf.
    replace (length rri + 1 - m)%nat with (S (length rri - m)) in Hf by lia.
    rewrite S_INR, minus_INR in Hf by exact Hm. exact Hf. }
  split; [exact Hone|].
  unfold phi.
  assert (Hsum : Rsum (map ln (apen_C rri tol m)) <= 0).
  { apply Rsum_nonpos. apply Forall_forall. intros y Hy.
    apply in_map_iff in Hy. destruct Hy as [c [<- Hc]].
    pose proof (apen_C_bound rri tol m Hm Htol) as Hpos.
    rewrite Forall_forall in Hpos, Hone.
    destruct (Hpos c Hc) as [_ Hc0]. specialize (Hone c Hc).
    exact (ln_le_one c Hc0 Hone). }
  assert (Hinv : 0 < / (INR (length rri) - INR m + 1)) by (apply Rinv_0_lt_compat; exact Hden).
  nra.
Qed.

Lemma approximate_entropy_phi_nonpositive_witness :
  let rri := [800; 810; 790] in
  (1 <= 2)%nat /\ (2 <= length rri)%nat /\ 0 <= 1
  /\ Forall (fun c => c <= 1) (apen_C rri 1 2) /\ phi rri 1 2 <= 0.
Proof.
  intros rri. split; [lia|]. split; [simpl; lia|]. split; [lra|].
  apply (approximate_entropy_phi_nonpositive rri 2 1); [lia|simpl; lia|lra].
Defined.

End EntropyBounds.

(** ** Band aggregator: what it emits *)

(** The rows one band contributes when it selects at least one sample. *)
Definition band_peak (fs ps : list Q) (b : string * (Q * Q)) : Q :=
  let band := band_selection fs b in
  nth (np_argmax_Q (map (fun i => nth i ps 0) band)) (map (fun i => nth i fs 0) band) 0.

Definition band_rows (fs ps : list Q) (df total_pwr : Q) (b : string * (Q * Q))
  : ReturnTuple :=
  [((fst b ++ "_pwr")%string, VFloat (band_power fs ps b * df));
   ((fst b ++ "_peak")%string, VFloat (band_peak fs ps b));
   ((fst b ++ "_rpwr")%string, VFloat (band_power fs ps b * df / total_pwr))].

Section BandRows.
Variables (fs ps : list Q) (df total_pwr : Q).
Hypothesis same_length : length fs = length ps.

Lemma fband_step_rows (acc : ReturnTuple) (b : string * (Q * Q)) :
  fband_step fs ps df total_pwr (Ok acc) b
  = Ok (acc ++ if band_selected fs b then band_rows fs ps df total_pwr b else []).
Proof.
  unfold fband_step, band_selected, band_rows, band_peak, band_power, band_selection.
  simpl. fold (band_lo b). fold (band_hi b).
  set (band := band_indices fs (band_lo b) (band_hi b)).
  destruct (length band =? 0)%nat eqn:E; simpl; [now rewrite app_nil_r|].
  apply Nat.eqb_neq in E.
  rewrite np_take_ok; [|intros i Hi; rewrite <- same_length; eapply band_indices_lt; exact Hi].
  simpl. rewrite np_take_ok; [|intros i Hi; eapply band_indices_lt; exact Hi].
  simpl. unfold np_index.
  set (selected := map (fun i => nth i ps 0) band).
  rewrite (nth_error_nth' _ 0); [reflexivity|].
  assert (Hs : selected <> []).
  { unfold selected. destruct band; [simpl in E; congruence|discriminate]. }
  pose proof (np_argmax_Q_bound selected Hs) as Hb.
  unfold selected in *. rewrite length_map in *. exact Hb.
Qed.

Lemma fold_fband_step_rows (bands : band_table) (acc : ReturnTuple) :
  fold_left (fband_step fs ps df total_pwr) bands (Ok acc)
  = Ok (acc ++ flat_map (band_rows fs ps df total_pwr)
                        (filter (band_selected fs) bands)).
Proof.
  revert acc. induction bands as [|b bs IH]; intros acc; cbn [fold_left filter].
  - now rewrite app_nil_r.
  - rewrite fband_step_rows, IH, <- app_assoc.
    destruct (band_selected fs b); reflexivity.
Qed.

End BandRows.

(** X19.  With fewer than two frequency samples the aggregator cannot form
    the frequency resolution and raises IndexError, whatever the powers and
    the band table. *)
Theorem compute_fbands_needs_two_frequencies
    (fs ps : list Q) (fbands : option band_table) :
  (length fs < 2)%nat -> compute_fbands fs ps fbands = Raise IndexError.
Proof.
  intros Hlen. unfold compute_fbands.
  destruct fs as [|f0 [|f1 fs]]; simpl in *; [reflexivity|reflexivity|lia].
Qed.

Lemma compute_fbands_needs_two_frequencies_witness :
  (length [1 # 10] < 2)%nat /\ compute_fbands [1 # 10] [5] None = Raise IndexError.
Proof.
  split; [simpl; lia|].
  apply (compute_fbands_needs_two_frequencies [1 # 10] [5] None). simpl. lia.
Defined.

(** X20.  On a spectrum with two or more samples and as many powers as
    frequencies the aggregator always returns, and its output is, band by
    band in table order, the three rows of every band that selects at least
    one sample; bands that select none contribute nothing. *)
Theorem compute_fbands_emits_selected_bands
    (fs ps : list Q) (fbands : option band_table) :
  length fs = length ps -> (2 <= length fs)%nat ->
  let df := nth 1 fs 0 - nth 0 fs 0 in
  let table := match fbands with Some t => t | None => FBANDS end in
  compute_fbands fs ps fbands
  = Ok (flat_map (band_rows fs ps df (np_sum ps * df))
                 (filter (band_selected fs) table)).
Proof.
  intros Hsame Hlen df table. unfold compute_fbands.
  destruct fs as [|f0 [|f1 fs']]; simpl in Hlen; try lia.
  cbn [np_index nth_error bind].
  rewrite (fold_fband_step_rows _ _ _ _ Hsame). reflexivity.
Qed.

Lemma compute_fbands_emits_selected_bands_witness :
  let fs := [0; 1 # 10; 2 # 10] in
  let ps := [1; 2; 3] in
  length fs = length ps /\ (2 <= length fs)%nat
  /\ compute_fbands fs ps None
     = Ok (flat_map (band_rows fs ps (nth 1 fs 0 - nth 0 fs 0)
                               (np_sum ps * (nth 1 fs 0 - nth 0 fs 0)))
                    (filter (band_selected fs) FBANDS)).
Proof.
  intros fs ps. split; [reflexivity|]. split; [simpl; lia|].
  apply (compute_fbands_emits_selected_bands fs ps None); [reflexivity|simpl; lia].
Defined.

(** ** Frequency-domain and non-linear extractors *)

(** The cumulative beat times and the resampling grid of the
    frequency-domain extractor. *)
Definition resampling_times (rri : list Q) : list Q :=
  let t := np_cumsum rri in
  map (fun x => x - hd 0 t) t.

Definition resampling_grid (rri : list Q) (frs : Q) : list Q :=
  let t := resampling_times rri in
  np_arange (hd 0 t) (last t 0) (1000 / frs).

Definition lf_band : string * (Q * Q) := ("lf"%string, (0.04, 0.15)).
Definition hf_band : string * (Q * Q) := ("hf"%string, (0.15, 0.4)).

Lemma ext_ge_weaken (d : extended) (k k' : Q) : k' <= k -> ext_ge d k -> ext_ge d k'.
Proof.
  destruct d as [q|]; simpl; [|tauto]. intros H1 H2. lra.
Qed.

Section Extractors.
Context `{Collaborators}.

(** X21.  The features of the frequency-domain extractor do not depend on the
    band table the caller passes: the aggregator is always run on the
    default bands. *)
Theorem hrv_frequencydomain_ignores_band_table
    (rri : option (list Q)) (duration : option extended) (method : string)
    (fbands : option band_table) (detrend_rri : bool) (frs : option Q) :
  hrv_frequencydomain rri duration method fbands detrend_rri frs
  = hrv_frequencydomain rri duration method None detrend_rri frs.
Proof. destruct rri; reflexivity. Qed.

(** X22.  When the spectrum has no sample in the LF band, or none in the HF
    band, the frequency-domain extractor does not return: the lookup of the
    missing band power raises KeyError, although the duration gate passed
    and the interpolation succeeded. *)
Theorem hrv_frequencydomain_missing_band
    (rri : list Q) (duration : option extended) (fbands : option band_table)
    (detrend_rri : bool) (frs : option Q) (v : list Q) :
  rri <> [] ->
  ext_ge (signal_duration rri duration) 20 ->
  let f := match frs with Some f => f | None => 4 end in
  interp1d_cubic (resampling_times rri) rri (resampling_grid rri f) = Some v ->
  let sp := welch (if detrend_rri then detrend_window v default_win_len else v) f 300 in
  length (fst sp) = length (snd sp) -> (2 <= length (fst sp))%nat ->
  band_selected (fst sp) lf_band = false \/ band_selected (fst sp) hf_band = false ->
  hrv_frequencydomain (Some rri) duration "FFT" fbands detrend_rri frs
  = Raise (KeyError (if band_selected (fst sp) lf_band then "hf_pwr" else "lf_pwr")).
Proof.
  intros Hne Hd f Hinterp sp Hsame Hlen Hmiss.
  unfold hrv_frequencydomain. cbn [existsb String.eqb Ascii.eqb Bool.eqb orb negb].
  rewrite (proj2 (ext_ltb_false_ge _ _) Hd), (proj2 (ext_geb_ge _ _) Hd).
  destruct rri as [|x xs]; [congruence|].
  unfold resampling_grid, resampling_times, np_cumsum in Hinterp.
  unfold np_cumsum.
  cbn [np_cumsum_from hd np_index nth_error bind] in *.
  fold f. rewrite Hinterp. cbn [bind]. fold sp.
  unfold compute_fbands.
  destruct (fst sp) as [|f0 [|f1 fs']] eqn:Efs; simpl in Hlen; try lia.
  cbn [np_index nth_error bind].
  rewrite (fold_fband_step_rows _ _ _ _ Hsame).
  unfold FBANDS, lf_band, hf_band in *. cbn [filter app].
  set (fs := f0 :: f1 :: fs') in *.
  set (rows := band_rows fs (snd sp) (f1 - f0) (np_sum (snd sp) * (f1 - f0))).
  destruct (band_selected fs ("lf"%string, (0.04, 0.15))) eqn:Elf;
    destruct (band_selected fs ("hf"%string, (0.15, 0.4))) eqn:Ehf;
    [destruct Hmiss; discriminate| | |];
    destruct (band_selected fs ("ulf"%string, (0, 0.003)));
    destruct (band_selected fs ("vlf"%string, (0.003, 0.04)));
    destruct (band_selected fs ("vhf"%string, (0.4, 0.5)));
    reflexivity.
Qed.

(** X23.  Once the duration reaches 90 s the non-linear extractor always
    returns the five Poincare descriptors and the sample entropy, in that
    order, and adds the approximate entropy exactly when the (possibly
    detrended) sequence has at least 800 samples, whatever the duration. *)
Theorem hrv_nonlinear_features
    (rri : list Q) (duration : option extended) (detrend_rri : bool) :
  ext_ge (signal_duration rri duration) 90 ->
  let series := if detrend_rri then detrend_window rri default_win_len else rri in
  exists out,
    hrv_nonlinear (Some rri) duration detrend_rri = Ok out
    /\ rt_names out
       = ["s"; "sd1"; "sd2"; "sd12"; "sd21"; "sampen"]%string
         ++ (if (800 <=? length series)%nat then ["appen"%string] else []).
Proof.
  intros Hd series. unfold hrv_nonlinear.
  rewrite (proj2 (ext_ltb_false_ge _ _) Hd), (proj2 (ext_geb_ge _ _) Hd).
  fold series. eexists. split; [reflexivity|].
  destruct (800 <=? length series)%nat; reflexivity.
Qed.

End Extractors.

Lemma hrv_frequencydomain_missing_band_witness :
  let C := Build_Collaborators (fun s _ => s) (fun _ _ x => Some x)
                               (fun _ _ _ => ([0; 1], [1; 1])) in
  let rri := [800; 810] in
  let sp := @welch C (resampling_grid rri 4) 4 300 in
  (rri <> [] /\ ext_ge (signal_duration rri (Some (Finite 30))) 20)
  /\ @hrv_frequencydomain C (Some rri) (Some (Finite 30)) "FFT" None false None
     = Raise (KeyError (if band_selected (fst sp) lf_band then "hf_pwr" else "lf_pwr")).
Proof.
  intros C rri sp. split; [split; [discriminate|discriminate]|].
  apply (@hrv_frequencydomain_missing_band C rri (Some (Finite 30)) None false None
           (resampling_grid rri 4));
    [discriminate|discriminate|reflexivity|reflexivity|simpl; lia|left; reflexivity].
Defined.

Lemma hrv_nonlinear_features_witness :
  ext_ge (signal_duration [800; 810; 790; 805] (Some (Finite 100))) 90
  /\ forall C : Collaborators,
       exists out,
         @hrv_nonlinear C (Some [800; 810; 790; 805]) (Some (Finite 100)) false = Ok out
         /\ rt_names out
            = ["s"; "sd1"; "sd2"; "sd12"; "sd21"; "sampen"]%string
              ++ (if (800 <=? length [800; 810; 790; 805])%nat
                  then ["appen"%string] else []).
Proof.
  split; [discriminate|]. intros C.
  apply (@hrv_nonlinear_features C [800; 810; 790; 805] (Some (Finite 100)) false).
  discriminate.
Defined.

(** ** Time-domain extractor: the share of large successive differences *)

Lemma pnn50_bounds (k n : nat) :
  (k <= n)%nat -> n <> 0%nat ->
  0 <= 100 * (inject_Z (Z.of_nat k) / inject_Z (Z.of_nat n)) <= 100.
Proof.
  intros Hle Hn.
  assert (Hk : 0 <= inject_Z (Z.of_nat k)).
  { change 0 with (inject_Z 0). rewrite <- Zle_Qle. lia. }
  assert (Hpos : 0 < inject_Z (Z.of_nat n)).
  { change 0 with (inject_Z 0). rewrite <- Zlt_Qlt. lia. }
  assert (Hkn : inject_Z (Z.of_nat k) <= inject_Z (Z.of_nat n)).
  { rewrite <- Zle_Qle. lia. }
  assert (H0 : 0 <= inject_Z (Z.of_nat k) / inject_Z (Z.of_nat n)).
  { apply Qle_shift_div_l; [exact Hpos|]. lra. }
  assert (H1 : inject_Z (Z.of_nat k) / inject_Z (Z.of_nat n) <= 1).
  { apply Qle_shift_div_r; [exact Hpos|]. lra. }
  split; lra.
Qed.

Section TimeDomainShare.
Context `{Collaborators}.

(** X24.  From 20 s on, whenever the time-domain extractor returns, [nn50] is
    a count between 0 and the number of successive differences and [pnn50]
    is a percentage between 0 and 100. *)
Theorem hrv_timedomain_pnn50_range
    (rri : list Q) (duration : option extended) (detrend_rri : bool)
    (rri_detrended : option (list Q)) (out : ReturnTuple) :
  ext_ge (signal_duration rri duration) 20 ->
  hrv_timedomain (Some rri) duration detrend_rri rri_detrended = Ok out ->
  exists nn50 pnn50,
    rt_get out "nn50" = Ok (VInt nn50)
    /\ rt_get out "pnn50" = Ok (VFloat pnn50)
    /\ (0 <= nn50)%Z /\ 0 <= pnn50 /\ pnn50 <= 100.
Proof.
  intros Hd. unfold hrv_timedomain.
  set (d := signal_duration rri duration) in *.
  assert (Hd10 : ext_ge d 10) by (apply (ext_ge_weaken d 20); [lra|exact Hd]).
  rewrite (proj2 (ext_ltb_false_ge _ _) Hd10), (proj2 (ext_geb_ge _ _) Hd10),
          (proj2 (ext_geb_ge _ _) Hd).
  set (series := if detrend_rri then _ else rri).
  set (diffs := np_diff series).
  set (large := filter (fun d0 => Qltb 50 (Qabs d0)) diffs).
  destruct (map (fun x : Q => 60 / (x / 1000)) rri) as [|h hs]; simpl;
    [discriminate|].
  destruct (length diffs =? 0)%nat eqn:E0; simpl; [discriminate|].
  apply Nat.eqb_neq in E0.
  pose proof (pnn50_bounds (length large) (length diffs)
                (filter_length_le _ diffs) E0) as [Hlo Hhi].
  destruct (ext_geb d 60), (ext_geb d 90); simpl;
    try destruct (compute_geometrical rri default_binsize)
      as [[|[k1 v1] [|[k2 v2] [|]]]|e3]; simpl;
    try discriminate;
    intros [= <-];
    (exists (Z.of_nat (length large)),
            (100 * (inject_Z (Z.of_nat (length large))
                    / inject_Z (Z.of_nat (length diffs)))));
    (split; [reflexivity|]); (split; [reflexivity|]);
    (split; [lia|]); (split; [exact Hlo|exact Hhi]).
Qed.

End TimeDomainShare.

Lemma hrv_timedomain_pnn50_range_witness :
  ext_ge (signal_duration (repeat 800 30) None) 20
  /\ forall C : Collaborators,
       exists out nn50 pnn50,
         @hrv_timedomain C (Some (repeat 800 30)) None false None = Ok out
         /\ rt_get out "nn50" = Ok (VInt nn50)
         /\ rt_get out "pnn50" = Ok (VFloat pnn50)
         /\ (0 <= nn50)%Z /\ 0 <= pnn50 /\ pnn50 <= 100.
Proof.
  split; [vm_compute; discriminate|]. intros C.
  destruct (@hrv_timedomain_24s C) as [out [Hrun _]].
  destruct (@hrv_timedomain_pnn50_range C (repeat 800 30) None false None out)
    as [nn50 [pnn50 Hrange]]; [vm_compute; discriminate|exact Hrun|].
  exists out, nn50, pnn50. split; [exact Hrun|exact Hrange].
Defined.
